(** * DamEdit-CLI: viewport, search and highlight core of [main.py]

    A shallow embedding of the editor session of [main.py] (the state of
    [EditorState], [clamp], [find_positions], [recompute_search],
    [goto_search_match], [read_file], [write_file] and the key dispatch of
    [main_curses]) together with the properties its specification states.

    Conventions.
    - Python [int] is [Z]; a Python [str] is the list of its code points.
    - The [str] builtins the program calls ([lower], [strip], [isdigit],
      [int]) are the fields of the class [PyStr]: every general theorem holds
      for any implementation of them.  [cpython] is the instance used to
      evaluate the program on concrete texts.
    - The theme configuration ([cfg]) and the curses drawing calls do not
      influence any of the modelled fields and are left out. *)

From Stdlib Require Import ZArith Lia.
From stdpp Require Import base numbers option list sorting strings pretty gmap.

Local Open Scope Z_scope.

(** ** Text *)

(** A Python string: the sequence of its Unicode code points. *)
Abbreviation str := (list N).

(** A string literal of the source (ASCII). *)
Definition lit (s : string) : str := Ascii.N_of_ascii <$> String.list_ascii_of_string s.

(** [f"{n}"] for an integer. *)
Definition fmt_int (n : Z) : str := lit (pretty n).

(** [len(x)] *)
Definition len {A} (l : list A) : Z := Z.of_nat (length l).

(** The builtin [str] methods used by the program.  Python's [str.lower]
    follows the Unicode case mapping, which is not one code point to one code
    point, so it is a map on whole strings; it never maps a non-empty string
    to the empty one.  [int_of_str s] is [None] where [int(s)] raises. *)
Class PyStr := {
  lower : str → str;
  strip : str → str;
  isdigit : str → bool;
  int_of_str : str → option Z;
  lower_nil_inv : ∀ s, lower s = [] → s = []
}.

(** Normalisation of a slice bound against a sequence of length [n]. *)
Definition slice_index (n k : Z) : Z :=
  if k <? 0 then Z.max 0 (k + n) else Z.min k n.

(** [s[a:b]] *)
Definition slice {A} (s : list A) (a b : Z) : list A :=
  let a' := slice_index (len s) a in
  let b' := slice_index (len s) b in
  take (Z.to_nat (b' - a')) (drop (Z.to_nat a') s).

(** [s[a:]] *)
Definition slice_from {A} (s : list A) (a : Z) : list A :=
  drop (Z.to_nat (slice_index (len s) a)) s.

(** [s.startswith(t)] *)
Fixpoint startswith (s t : str) {struct t} : bool :=
  match t, s with
  | [], _ => true
  | _ :: _, [] => false
  | c :: t', d :: s' => bool_decide (c = d) && startswith s' t'
  end.

(** [t in s] *)
Fixpoint str_in (t s : str) : bool :=
  startswith s t ||
  match s with
  | [] => false
  | _ :: s' => str_in t s'
  end.

(** Truth value of an [Optional[str]]: [None] and the empty string are false. *)
Definition truthy (o : option str) : bool :=
  match o with
  | Some (_ :: _) => true
  | _ => false
  end.

(** ** Editor state *)

Record EditorState := mkState {
  filename : str;
  lines : list str;
  trailing_nl : bool;
  top : Z;
  sel : Z;
  window_h : Z;
  window_w : Z;
  modified : bool;
  search_term : option str;
  search_matches : list Z;
  match_index : Z;
  status_msg : str;
  status_type : str
}.

Definition set_lines (st : EditorState) (v : list str) : EditorState :=
  mkState (filename st) v (trailing_nl st) (top st) (sel st) (window_h st)
    (window_w st) (modified st) (search_term st) (search_matches st)
    (match_index st) (status_msg st) (status_type st).

Definition set_trailing_nl (st : EditorState) (v : bool) : EditorState :=
  mkState (filename st) (lines st) v (top st) (sel st) (window_h st)
    (window_w st) (modified st) (search_term st) (search_matches st)
    (match_index st) (status_msg st) (status_type st).

Definition set_top (st : EditorState) (v : Z) : EditorState :=
  mkState (filename st) (lines st) (trailing_nl st) v (sel st) (window_h st)
    (window_w st) (modified st) (search_term st) (search_matches st)
    (match_index st) (status_msg st) (status_type st).

Definition set_sel (st : EditorState) (v : Z) : EditorState :=
  mkState (filename st) (lines st) (trailing_nl st) (top st) v (window_h st)
    (window_w st) (modified st) (search_term st) (search_matches st)
    (match_index st) (status_msg st) (status_type st).

Definition set_window (st : EditorState) (h w : Z) : EditorState :=
  mkState (filename st) (lines st) (trailing_nl st) (top st) (sel st) h
    w (modified st) (search_term st) (search_matches st)
    (match_index st) (status_msg st) (status_type st).

Definition set_modified (st : EditorState) (v : bool) : EditorState :=
  mkState (filename st) (lines st) (trailing_nl st) (top st) (sel st) (window_h st)
    (window_w st) v (search_term st) (search_matches st)
    (match_index st) (status_msg st) (status_type st).

Definition set_search_term (st : EditorState) (v : option str) : EditorState :=
  mkState (filename st) (lines st) (trailing_nl st) (top st) (sel st) (window_h st)
    (window_w st) (modified st) v (search_matches st)
    (match_index st) (status_msg st) (status_type st).

Definition set_search_matches (st : EditorState) (v : list Z) : EditorState :=
  mkState (filename st) (lines st) (trailing_nl st) (top st) (sel st) (window_h st)
    (window_w st) (modified st) (search_term st) v
    (match_index st) (status_msg st) (status_type st).

Definition set_match_index (st : EditorState) (v : Z) : EditorState :=
  mkState (filename st) (lines st) (trailing_nl st) (top st) (sel st) (window_h st)
    (window_w st) (modified st) (search_term st) (search_matches st)
    v (status_msg st) (status_type st).

(** [set_status(st, msg, tp)] *)
Definition set_status (st : EditorState) (msg tp : str) : EditorState :=
  mkState (filename st) (lines st) (trailing_nl st) (top st) (sel st) (window_h st)
    (window_w st) (modified st) (search_term st) (search_matches st)
    (match_index st) msg tp.

(** [EditorState.total] *)
Definition total (st : EditorState) : Z := len (lines st).

(** [EditorState.selected_index] *)
Definition selected_index (st : EditorState) : Z := top st + sel st.

(** ** Viewport *)

(** The first half of [clamp]: each of [top] and [sel] is brought into its
    own range. *)
Definition clamp_fields (st : EditorState) : EditorState :=
  let max_top := Z.max 0 (total st - window_h st) in
  let st := if top st <? 0 then set_top st 0 else st in
  let st := if top st >? max_top then set_top st max_top else st in
  let st := if sel st <? 0 then set_sel st 0 else st in
  if sel st >=? window_h st then set_sel st (window_h st - 1) else st.

(** The second half of [clamp]: a selection beyond the buffer is pinned. *)
Definition clamp_pin (st : EditorState) : EditorState :=
  if selected_index st >=? total st then
    if total st =? 0 then set_sel (set_top st 0) 0
    else
      let last := total st - 1 in
      let st := set_top st (Z.max 0 (last - (window_h st - 1))) in
      set_sel st (last - top st)
  else st.

(** [EditorState.clamp] *)
Definition clamp (st : EditorState) : EditorState :=
  if window_h st <=? 0 then st else clamp_pin (clamp_fields st).

(** The viewport invariant of the specification, for a window of positive
    height. *)
Definition viewport_ok (st : EditorState) : Prop :=
  0 ≤ top st ≤ Z.max 0 (total st - window_h st) ∧
  0 ≤ sel st < window_h st ∧
  (0 < total st → top st + sel st < total st) ∧
  (total st = 0 → top st = 0 ∧ sel st = 0).

(** [draw]: only its effect on the state; the window is re-derived from the
    terminal size [h] x [w] and the viewport is clamped. *)
Definition draw (h w : Z) (st : EditorState) : EditorState :=
  clamp (set_window st (Z.max 1 (h - 2)) w).

(** Arrow up / [k]. *)
Definition key_up (st : EditorState) : EditorState :=
  let st :=
    if sel st >? 0 then set_sel st (sel st - 1)
    else if top st >? 0 then set_top st (top st - 1)
    else st in
  set_status st [] (lit "info").

(** Arrow down / [j]. *)
Definition key_down (st : EditorState) : EditorState :=
  let st :=
    if selected_index st + 1 <? total st then
      if sel st + 1 <? window_h st then set_sel st (sel st + 1)
      else set_top st (top st + 1)
    else st in
  set_status st [] (lit "info").

(** Page up. *)
Definition key_ppage (st : EditorState) : EditorState :=
  let page := Z.max 1 (window_h st - 1) in
  set_status (set_top st (Z.max 0 (top st - page))) [] (lit "info").

(** Page down. *)
Definition key_npage (st : EditorState) : EditorState :=
  let page := Z.max 1 (window_h st - 1) in
  let st := set_top st (Z.min (Z.max 0 (total st - window_h st)) (top st + page)) in
  set_status st [] (lit "info").

(** ** Highlight spans *)

(** The [while] loop of [find_positions], for at most [fuel] iterations:
    [None] when the fuel is used up before the loop condition fails. *)
Fixpoint find_loop (fuel : nat) (line low t : str) (lt i : Z)
    (res : list (Z * Z)) : option (list (Z * Z)) :=
  if i <=? len line - lt then
    match fuel with
    | O => None
    | S fuel' =>
        if bool_decide (slice low i (i + lt) = t)
        then find_loop fuel' line low t lt (i + lt) (res ++ [(i, i + lt)])
        else find_loop fuel' line low t lt (i + 1) res
    end
  else Some res.

(** The segments [draw] cuts a line into along its spans, without the cut at
    the window width: the text before each span, the span, and the tail. *)
Fixpoint segments (line : str) (cur : Z) (spans : list (Z * Z)) : list str :=
  match spans with
  | [] => [slice_from line cur]
  | (s, e) :: spans' => slice line cur s :: slice line s e :: segments line e spans'
  end.

(** Spans that are in ascending order, do not overlap, are not empty and lie
    within [[lo, hi]]. *)
Fixpoint well_spaced (lo hi : Z) (spans : list (Z * Z)) : Prop :=
  match spans with
  | [] => True
  | (s, e) :: spans' => lo ≤ s ∧ s < e ∧ e ≤ hi ∧ well_spaced e hi spans'
  end.

(** The spans of a greedy left-to-right scan for occurrences of width [lt]
    whose start lies in [[cur, last]]: each span is the leftmost occurrence
    that starts at or after the end of the span before it ([occ j]: there is
    an occurrence at [j]). *)
Fixpoint greedy (occ : Z → Prop) (lt cur last : Z) (spans : list (Z * Z)) : Prop :=
  match spans with
  | [] => ∀ j, cur ≤ j ≤ last → ¬ occ j
  | (s, e) :: spans' =>
      cur ≤ s ≤ last ∧ occ s ∧ e = s + lt ∧
      (∀ j, cur ≤ j < s → ¬ occ j) ∧
      greedy occ lt e last spans'
  end.

(** ** Loader and writer *)

Definition LF : N := 10.
Definition CR : N := 13.

(** [raw.replace(b"\r\n", b"\n")] *)
Fixpoint replace_crlf (s : str) : str :=
  match s with
  | [] => []
  | c :: s' =>
      match s' with
      | d :: s'' =>
          if bool_decide (c = CR) && bool_decide (d = LF)
          then LF :: replace_crlf s''
          else c :: replace_crlf s'
      | [] => [c]
      end
  end.

(** [text.split("\n")] *)
Fixpoint split_lf (s : str) : list str :=
  match s with
  | [] => [[]]
  | c :: s' =>
      if bool_decide (c = LF) then [] :: split_lf s'
      else match split_lf s' with
           | [] => [[c]]
           | l :: ls => (c :: l) :: ls
           end
  end.

(** ["\n".join(lines)] *)
Fixpoint join_lf (ls : list str) : str :=
  match ls with
  | [] => []
  | l :: ls' =>
      match ls' with
      | [] => l
      | _ :: _ => l ++ LF :: join_lf ls'
      end
  end.

(** [text.endswith("\n")] *)
Definition ends_with_lf (s : str) : bool := bool_decide (last s = Some LF).

(** A file on disk.  A readable file is given by the text its bytes decode to
    as UTF-8 (the latin-1 fallback of [read_file] for bytes that are not
    UTF-8 is outside the model); [Faulty e] is a path on which [open] raises
    the error [e].  A path that is not in the map does not exist. *)
Inductive file :=
  | File (text : str)
  | Faulty (e : str).

Abbreviation disk := (gmap str file).

(** How a call that touches the disk ends. *)
Inductive result (A : Type) :=
  | Ok (a : A)
  | Raise (e : str)
  | SysExit.
Arguments Ok {A} a.
Arguments Raise {A} e.
Arguments SysExit {A}.

(** The body of [read_file] after the file has been opened and decoded. *)
Definition read_text (raw : str) : list str * bool :=
  let raw := if str_in [CR; LF] raw then replace_crlf raw else raw in
  let trailing := ends_with_lf raw in
  let lines := split_lf raw in
  let lines :=
    if bool_decide (lines ≠ []) && bool_decide (last lines = Some []) && negb trailing
    then removelast lines else lines in
  (lines, trailing).

(** [read_file] *)
Definition read_file (d : disk) (path : str) : result (list str * bool) :=
  match d !! path with
  | None => SysExit
  | Some (Faulty e) => Raise e
  | Some (File raw) => Ok (read_text raw)
  end.

(** The text [write_file] writes. *)
Definition file_text (lines : list str) (trailing : bool) : str :=
  let txt := join_lf lines in
  if trailing then txt ++ [LF] else txt.

(** [write_file] *)
Definition write_file (d : disk) (path : str) (lines : list str) (trailing : bool)
    : result disk :=
  match d !! path with
  | Some (Faulty e) => Raise e
  | _ => Ok (<[path := File (file_text lines trailing)]> d)
  end.

(** [l[k]] for a list: [None] where Python raises [IndexError]. *)
Definition getitem {A} (l : list A) (k : Z) : option A :=
  if k <? 0 then
    if k + len l <? 0 then None else l !! Z.to_nat (k + len l)
  else l !! Z.to_nat k.

Section Session.
Context `{PyStr}.

(** [find_positions].  [None] stands for a loop that does not end. *)
Definition find_positions (line : str) (term : option str) : option (list (Z * Z)) :=
  match term with
  | Some (c :: term') =>
      let low := lower line in
      let t := lower (c :: term') in
      let lt := len t in
      find_loop (length line) line low t lt 0 []
  | _ => Some []
  end.

(** ** Search *)

(** The scan of [recompute_search] over [enumerate(st.lines)], from index [i]. *)
Fixpoint scan_lines (t : str) (i : Z) (ls : list str) (acc : list Z) : list Z :=
  match ls with
  | [] => acc
  | ln :: ls' =>
      scan_lines t (i + 1) ls' (if str_in t (lower ln) then acc ++ [i] else acc)
  end.

(** The [for ... else] of [recompute_search] over [enumerate(matches)], from
    list index [idx]: the index at the [break], [None] when the loop runs to
    its end. *)
Fixpoint first_at_or_after (sel_ix : Z) (idx : Z) (ms : list Z) : option Z :=
  match ms with
  | [] => None
  | li :: ms' =>
      if li >=? sel_ix then Some idx else first_at_or_after sel_ix (idx + 1) ms'
  end.

(** [recompute_search] *)
Definition recompute_search (st : EditorState) : EditorState :=
  let st := set_search_matches st [] in
  match search_term st with
  | Some (c :: term') =>
      let t := lower (c :: term') in
      let st := set_search_matches st (scan_lines t 0 (lines st) (search_matches st)) in
      match search_matches st with
      | [] => set_match_index st (-1)
      | _ :: _ =>
          let sel_ix := selected_index st in
          match first_at_or_after sel_ix 0 (search_matches st) with
          | Some idx => set_match_index st idx
          | None => set_match_index st 0
          end
      end
  | _ => set_match_index st (-1)
  end.

(** A line contains a term case-insensitively: the lowercase term is a
    substring of the lowercase line. *)
Definition contains_ci (term line : str) : Prop :=
  ∃ pre post, lower line = pre ++ lower term ++ post.

(** [goto_search_match].  The subscript [st.search_matches[st.match_index]]
    is always in range (lemma [goto_target_in_range]), so the default of the
    lookup is never taken. *)
Definition goto_search_match (st : EditorState) (forward : bool) : EditorState :=
  match search_matches st with
  | [] => set_status st (lit "No matches") (lit "err")
  | _ :: _ =>
      let st :=
        if match_index st =? -1 then set_match_index st 0
        else set_match_index st
               ((match_index st + (if forward then 1 else -1))
                  `mod` len (search_matches st)) in
      let target := default 0 (getitem (search_matches st) (match_index st)) in
      let half := window_h st `div` 2 in
      let st := set_top st (Z.max 0 (target - half)) in
      let st := set_sel st (target - top st) in
      let st := clamp st in
      set_status st
        (lit "Match " ++ fmt_int (match_index st + 1) ++ lit "/" ++
         fmt_int (len (search_matches st)) ++ lit " at " ++ fmt_int (target + 1))
        (lit "info")
  end.

(** ** Key dispatch of [main_curses] *)

(** One key press, with the replies the user gives to the prompts it opens
    ([None]: the prompt failed). *)
Inductive key :=
  | KInterrupt
  | KNoKey
  | KQuit (ans : option str)
  | KUp
  | KDown
  | KPageUp
  | KPageDown
  | KGoto (n : option str)
  | KEdit (new : option str)
  | KSave
  | KSearch (term : option str)
  | KNext
  | KPrev
  | KReload (ans : option str)
  | KTheme
  | KResize
  | KOther.

(** How one turn of the main loop ends. *)
Inductive outcome :=
  | Continue (st : EditorState) (d : disk)
  | Break
  | Exit
  | Uncaught.

(** [ans and ans.lower() == "y"] *)
Definition says_yes (ans : option str) : bool :=
  match ans with
  | Some a => truthy ans && bool_decide (lower a = lit "y")
  | None => false
  end.

(** [g]: go to a line. *)
Definition key_goto (n : option str) (st : EditorState) : option EditorState :=
  match n with
  | Some s =>
      if truthy n && isdigit (strip s) then
        ln ← int_of_str (strip s);
        let ln := ln - 1 in
        let ln := Z.max 0 (Z.min ln (Z.max 0 (total st - 1))) in
        let st := set_top st (Z.max 0 (ln - window_h st `div` 2)) in
        let st := set_sel st (ln - top st) in
        let st := clamp st in
        Some (set_status st (lit "Jumped to " ++ fmt_int (ln + 1)) (lit "ok"))
      else Some (set_status st (lit "Invalid line") (lit "err"))
  | None => Some st
  end.

(** [e]: edit the selected line. *)
Definition key_edit (new : option str) (st : EditorState) : EditorState :=
  let idx := selected_index st in
  if (0 <=? idx) && (idx <? total st) then
    let cur := default [] (getitem (lines st) idx) in
    match new with
    | Some txt =>
        if bool_decide (txt ≠ cur) then
          let st := set_lines st (<[Z.to_nat idx := txt]> (lines st)) in
          let st := set_modified st true in
          let st := set_status st (lit "Line updated") (lit "ok") in
          if truthy (search_term st) then recompute_search st else st
        else set_status st (lit "Edit cancelled") (lit "info")
    | None => set_status st (lit "Edit cancelled") (lit "info")
    end
  else set_status st (lit "Nothing to edit") (lit "err").

(** [s]: save. *)
Definition key_save (st : EditorState) (d : disk) : outcome :=
  match write_file d (filename st) (lines st) (trailing_nl st) with
  | Ok d' => Continue (set_status (set_modified st false) (lit "Saved") (lit "ok")) d'
  | Raise e => Continue (set_status st (lit "Save error: " ++ e) (lit "err")) d
  | SysExit => Exit
  end.

(** [/]: search. *)
Definition key_search (term : option str) (st : EditorState) : EditorState :=
  match term with
  | None => set_status st (lit "Search cancelled") (lit "info")
  | Some s =>
      let t := strip s in
      if bool_decide (t = []) then
        let st := recompute_search (set_search_term st None) in
        set_status st (lit "Search cleared") (lit "info")
      else
        let st := recompute_search (set_search_term st (Some t)) in
        match search_matches st with
        | _ :: _ => goto_search_match st true
        | [] => set_status st (lit "No matches for '" ++ t ++ lit "'") (lit "err")
        end
  end.

(** [r]: reload. *)
Definition key_reload (ans : option str) (st : EditorState) (d : disk) : outcome :=
  if modified st && negb (says_yes ans) then
    Continue (set_status st (lit "Reload cancelled") (lit "info")) d
  else
    match read_file d (filename st) with
    | SysExit => Exit
    | Raise e => Continue (set_status st (lit "Reload error: " ++ e) (lit "err")) d
    | Ok (ls, tr) =>
        let st := set_trailing_nl (set_lines st ls) tr in
        let st := set_modified st false in
        let st := set_status st (lit "Reloaded") (lit "ok") in
        Continue (if truthy (search_term st) then recompute_search st else st) d
    end.

(** One turn of the loop of [main_curses]: [draw] on a terminal of size
    [h] x [w], then the dispatch of the key. *)
Definition turn (h w : Z) (k : key) (st : EditorState) (d : disk) : outcome :=
  let st := draw h w st in
  match k with
  | KInterrupt => Break
  | KNoKey => Continue st d
  | KQuit ans =>
      if modified st then
        if says_yes ans then Break else Continue st d
      else Break
  | KUp => Continue (key_up st) d
  | KDown => Continue (key_down st) d
  | KPageUp => Continue (key_ppage st) d
  | KPageDown => Continue (key_npage st) d
  | KGoto n =>
      match key_goto n st with
      | Some st' => Continue st' d
      | None => Uncaught
      end
  | KEdit new => Continue (key_edit new st) d
  | KSave => key_save st d
  | KSearch term => Continue (key_search term st) d
  | KNext => Continue (goto_search_match st true) d
  | KPrev => Continue (goto_search_match st false) d
  | KReload ans => key_reload ans st d
  | KTheme => Continue (set_status st (lit "Applied theme from config.json") (lit "ok")) d
  | KResize => Continue (set_status st (lit "Resized") (lit "info")) d
  | KOther => Continue st d
  end.

(** The loop over a finite sequence of turns. *)
Fixpoint run (evs : list (Z * Z * key)) (st : EditorState) (d : disk) : outcome :=
  match evs with
  | [] => Continue st d
  | (h, w, k) :: evs' =>
      match turn h w k st d with
      | Continue st' d' => run evs' st' d'
      | o => o
      end
  end.

End Session.

(** ** CPython's string methods on the Latin range

    [cpython] evaluates the builtins on texts made of code points below
    U+0100 and of U+0130 (LATIN CAPITAL LETTER I WITH DOT ABOVE, whose
    lowercase form is the two code points U+0069 U+0307); other code points
    are left as they are. *)

Definition lower_char (c : N) : str :=
  if ((65 <=? c) && (c <=? 90))%N then [(c + 32)%N]
  else if ((192 <=? c) && (c <=? 222) && negb (c =? 215))%N then [(c + 32)%N]
  else if (c =? 304)%N then [105%N; 775%N]
  else [c].

Definition py_lower (s : str) : str := s ≫= lower_char.

Definition is_space (c : N) : bool :=
  (((9 <=? c) && (c <=? 13)) || ((28 <=? c) && (c <=? 32)) || (c =? 133) || (c =? 160))%N.

Fixpoint lstrip (s : str) : str :=
  match s with
  | c :: s' => if is_space c then lstrip s' else s
  | [] => []
  end.

Definition py_strip (s : str) : str := reverse (lstrip (reverse (lstrip s))).

Definition is_ascii_digit (c : N) : bool := ((48 <=? c) && (c <=? 57))%N.

(** [str.isdigit] also accepts the superscript digits of Latin-1, which
    [int] rejects. *)
Definition py_isdigit (s : str) : bool :=
  bool_decide (s ≠ []) &&
  forallb (λ c, is_ascii_digit c || (c =? 178)%N || (c =? 179)%N || (c =? 185)%N) s.

Definition py_int (s : str) : option Z :=
  if bool_decide (s ≠ []) && forallb is_ascii_digit s
  then Some (foldl (λ acc c, 10 * acc + Z.of_N (c - 48)) 0 s)
  else None.

#[export] Instance cpython : PyStr.
Proof.
  refine {| lower := py_lower; strip := py_strip;
            isdigit := py_isdigit; int_of_str := py_int |}.
  intros [|c s]; [done|].
  unfold py_lower; simpl; unfold lower_char.
  repeat case_match; discriminate.
Defined.

(** The selected indices of [n] successive states under arrow-down presses,
    starting with the given one. *)
Fixpoint visited (n : nat) (st : EditorState) : list Z :=
  match n with
  | O => []
  | S n' => selected_index st :: visited n' (key_down st)
  end.

(** A buffer of three lines, shown in a window of height [h] with the given
    raw [top] and [sel]. *)
Definition three_lines (t s h : Z) : EditorState :=
  mkState (lit "notes.txt") [lit "foo bar"; lit "baz foo"; lit "qux"] true
    t s h 80 false None [] (-1) [] (lit "info").

Definition is_reload (k : key) : bool :=
  match k with KReload _ => true | _ => false end.

Definition is_edit (k : key) : bool :=
  match k with KEdit _ => true | _ => false end.

(** A disk on which [notes.txt] cannot be opened. *)
Definition locked_disk : disk :=
  {[ lit "notes.txt" := Faulty (lit "Permission denied") ]}.

(** The three-line buffer after a search for [foo], and the same with the
    cursor on no match. *)
Definition foo_search : EditorState :=
  recompute_search (set_search_term (three_lines 0 0 5) (Some (lit "foo"))).

Definition foo_search_none : EditorState := set_match_index foo_search (-1).

(** The line [İba]: U+0130, [b], [a]. *)
Definition dotted_line : str := [304%N; 98%N; 97%N].

(** A disk with one file, [a.txt], holding the line [a] and its newline. *)
Definition one_line_disk : disk := {[ lit "a.txt" := File (lit "a" ++ [LF]) ]}.

(** ** Further definitions *)



(** A text with Windows line endings: each newline is preceded by a
    carriage return. *)
Definition to_crlf (s : str) : str :=
  s ≫= (λ c, if bool_decide (c = LF) then [CR; LF] else [c]).

(** The text [read_file] splits into lines: the decoded text after the
    [replace] of its first lines. *)
Definition normalised (raw : str) : str :=
  if str_in [CR; LF] raw then replace_crlf raw else raw.

(** The state [main_curses] starts its loop with: [EditorState.__init__] on
    the loaded file, then [recompute_search]. *)
Definition init_state (path : str) (ls : list str) (tr : bool) : EditorState :=
  mkState path ls tr 0 0 0 0 false None [] (-1)
    (lit "Press q to quit, h for help") (lit "info").

Definition start `{PyStr} (d : disk) (path : str) : result EditorState :=
  match read_file d path with
  | Ok (ls, tr) => Ok (recompute_search (init_state path ls tr))
  | Raise e => Raise e
  | SysExit => SysExit
  end.

(** The match list that belongs to a term and a buffer. *)
Definition matches_of `{PyStr} (term : option str) (ls : list str) : list Z :=
  match term with
  | Some (c :: term') => scan_lines (lower (c :: term')) 0 ls []
  | _ => []
  end.

(** The search state is up to date: the match list is the one of the current
    term and buffer, and the cursor is [-1] on an empty list and an index
    into the list otherwise. *)
Definition search_consistent `{PyStr} (st : EditorState) : Prop :=
  search_matches st = matches_of (search_term st) (lines st) ∧
  (search_matches st = [] → match_index st = -1) ∧
  (search_matches st ≠ [] → 0 ≤ match_index st < len (search_matches st)).

(** The cursor [recompute_search] sets for the selected index [sel_ix] and
    the match list [ms]. *)
Definition cursor_for (sel_ix : Z) (ms : list Z) : Z :=
  match ms with
  | [] => -1
  | _ :: _ => default 0 (first_at_or_after sel_ix 0 ms)
  end.

(** Two states with the same buffer and the same search state. *)
Definition same_search (st st' : EditorState) : Prop :=
  lines st' = lines st ∧ search_term st' = search_term st ∧
  search_matches st' = search_matches st ∧ match_index st' = match_index st.

(** A buffer of ten numbered lines in a window of height 4, with the matches
    of a search for [line]. *)
Definition ten_lines : EditorState :=
  mkState (lit "ten.txt")
    ((λ k : nat, lit "line " ++ fmt_int (Z.of_nat k)) <$> seq 0 10) true
    0 0 4 80 false (Some (lit "line"))
    (Z.of_nat <$> seq 0 10) 8 [] (lit "info").

(** A disk with the file [crlf.txt] of two lines with Windows line endings
    and the file [plain.txt] with no final newline. *)
Definition two_files_disk : disk :=
  {[ lit "crlf.txt" := File (to_crlf (lit "one" ++ [LF] ++ lit "two" ++ [LF]));
     lit "plain.txt" := File (lit "one" ++ [LF] ++ lit "two") ]}.

(** ** Drawing a line

    The content loop of [draw] for one visible line, as the sequence of the
    [stdscr.addnstr(y, x, text, n, attr)] calls it makes after the gutter
    (a call that raises [curses.error] is skipped by the source; the column
    arithmetic goes on either way). *)

Inductive attr :=
  | BaseAttr
  | SearchHighlight.

Record addnstr_call := mkCall {
  call_x : Z;
  call_text : str;
  call_n : Z;
  call_attr : attr
}.

(** The [for s, e in matches] loop, from column [x] and line position [cur]:
    the calls made, and [x] and [cur] when the loop is left. *)
Fixpoint draw_spans (line : str) (w : Z) (spans : list (Z * Z)) (x cur : Z)
    : list addnstr_call * Z * Z :=
  match spans with
  | [] => ([], x, cur)
  | (s, e) :: spans' =>
      if x >=? w then ([], x, cur)
      else
        let seg := slice line cur s in
        let before :=
          match seg with
          | [] => []
          | _ :: _ => [mkCall x seg (w - x) BaseAttr]
          end in
        let x :=
          match seg with
          | [] => x
          | _ :: _ => x + Z.min (len seg) (Z.max 0 (w - x))
          end in
        if x >=? w then (before, x, cur)
        else
          let mseg := slice line s e in
          let hit := mkCall x mseg (w - x) SearchHighlight in
          let x := x + Z.min (len mseg) (Z.max 0 (w - x)) in
          let '(rest, x', cur') := draw_spans line w spans' x e in
          (before ++ hit :: rest, x', cur')
  end.

(** The calls that draw the text of a line: the spans loop, then the tail. *)
Definition draw_text (line : str) (w : Z) (spans : list (Z * Z)) (x0 : Z)
    : list addnstr_call :=
  let '(calls, x, cur) := draw_spans line w spans x0 0 in
  calls ++
  (if (x <? w) && (cur <? len line)
   then [mkCall x (slice_from line cur) (w - x) BaseAttr] else []).

(** [" " * n] *)
Definition spaces (n : Z) : str := replicate (Z.to_nat n) 32%N.

(** All the calls for a line after its gutter; on the selected row the
    padding call comes last. *)
Definition draw_line (line : str) (w : Z) (spans : list (Z * Z)) (x0 : Z)
    (is_sel : bool) : list addnstr_call :=
  let '(_, x, _) := draw_spans line w spans x0 0 in
  draw_text line w spans x0 ++
  (if is_sel && (x <? w) then [mkCall x (spaces (w - x)) (w - x) BaseAttr] else []).

(** What a call can write: at most [n] characters of its text. *)
Definition written (c : addnstr_call) : str :=
  take (Z.to_nat (call_n c)) (call_text c).

(** The calls are laid out from column [x0] on without gap or overlap: each
    starts where the writing of the ones before it ends. *)
Fixpoint contiguous (x0 : Z) (calls : list addnstr_call) : Prop :=
  match calls with
  | [] => True
  | c :: calls' => call_x c = x0 ∧ contiguous (x0 + len (written c)) calls'
  end.

(** The end of the last span, [cur] when there is none. *)
Definition last_end (cur : Z) (spans : list (Z * Z)) : Z :=
  default cur (snd <$> last spans).

(** ** Configuration

    A value read by [json.load].  A Python [dict] is the list of its entries
    in insertion order, with distinct keys.  Numbers are integers here; the
    program never looks into one. *)
#[local] Set Warnings "-register-all".
Inductive json :=
  | JNull
  | JBool (b : bool)
  | JNum (n : Z)
  | JStr (s : str)
  | JList (l : list json)
  | JDict (kv : list (str * json)).

(** [d.get(k)] on the entries of a dict. *)
Fixpoint dict_get {V} (kv : list (str * V)) (k : str) : option V :=
  match kv with
  | [] => None
  | (k', v) :: kv' => if bool_decide (k' = k) then Some v else dict_get kv' k
  end.

(** [d[k] = v] on the entries of a dict: the entry is replaced where it is,
    or added at the end. *)
Fixpoint dict_set {V} (kv : list (str * V)) (k : str) (v : V) : list (str * V) :=
  match kv with
  | [] => [(k, v)]
  | (k', v') :: kv' =>
      if bool_decide (k' = k) then (k', v) :: kv' else (k', v') :: dict_set kv' k v
  end.

(** [k in j] for a string [k]: a key of a dict, an element of a list, a
    substring of a string; [None] where Python raises [TypeError]. *)
Definition py_contains (j : json) (k : str) : option bool :=
  match j with
  | JDict kv => Some (bool_decide (is_Some (dict_get kv k)))
  | JList l =>
      Some (existsb (λ e, match e with JStr s => bool_decide (s = k) | _ => false end) l)
  | JStr s => Some (str_in k s)
  | _ => None
  end.

(** [j[k]] for a string [k]; [None] where Python raises ([KeyError] on a
    dict without the key, [TypeError] on anything that is not a dict). *)
Definition subscript (j : json) (k : str) : option json :=
  match j with
  | JDict kv => dict_get kv k
  | _ => None
  end.

(** [j[k] = v] for a string [k]; [None] where Python raises [TypeError]. *)
Definition assign (j : json) (k : str) (v : json) : option json :=
  match j with
  | JDict kv => Some (JDict (dict_set kv k v))
  | _ => None
  end.

(** [DEFAULT_CONFIG["theme"]] *)
Definition default_theme : list (str * json) :=
  [ (lit "header_fg", JStr (lit "white")); (lit "header_bg", JStr (lit "blue"));
    (lit "default_fg", JStr (lit "white")); (lit "default_bg", JStr (lit "black"));
    (lit "gutter_fg", JStr (lit "yellow"));
    (lit "search_fg", JStr (lit "black")); (lit "search_bg", JStr (lit "yellow"));
    (lit "selected_fg", JStr (lit "black")); (lit "selected_bg", JStr (lit "cyan"));
    (lit "status_ok_fg", JStr (lit "green")); (lit "status_err_fg", JStr (lit "red"));
    (lit "status_info_fg", JStr (lit "white")) ].

(** [DEFAULT_CONFIG] *)
Definition default_config : json := JDict [(lit "theme", JDict default_theme)].

(** One turn of the loop of [load_config] that fills the missing keys. *)
Definition fill_key (cfg : json) (entry : str * json) : option json :=
  th ← subscript cfg (lit "theme");
  has ← py_contains th entry.1;
  if has : bool then Some cfg
  else th' ← assign th entry.1 entry.2; assign cfg (lit "theme") th'.

Fixpoint fill_keys (cfg : json) (entries : list (str * json)) : option json :=
  match entries with
  | [] => Some cfg
  | entry :: entries' => cfg' ← fill_key cfg entry; fill_keys cfg' entries'
  end.

(** The body of the second [try] of [load_config] after [json.load]; [None]
    where it raises. *)
Definition fill_defaults (cfg : json) : option json :=
  has ← py_contains cfg (lit "theme");
  cfg ← (if has : bool then Some cfg
         else assign cfg (lit "theme") (JDict default_theme));
  fill_keys cfg default_theme.

(** What [load_config] finds: no file, a file that cannot be read or parsed,
    or a parsed value. *)
Inductive config_file :=
  | NoConfig
  | BadConfig
  | Config (cfg : json).

(** [load_config], without the writing of the default file when there is
    none. *)
Definition load_config (f : config_file) : json :=
  match f with
  | NoConfig => default_config
  | BadConfig => default_config
  | Config cfg => default default_config (fill_defaults cfg)
  end.

(** [COLOR_NAMES], with the colour numbers of the curses module. *)
Definition COLOR_NAMES : list (str * Z) :=
  [ (lit "black", 0); (lit "red", 1); (lit "green", 2); (lit "yellow", 3);
    (lit "blue", 4); (lit "magenta", 5); (lit "cyan", 6); (lit "white", 7);
    (lit "default", -1) ].

(** [color_from_name] *)
Definition color_from_name `{PyStr} (name : str) : Z :=
  match name with
  | [] => -1
  | _ :: _ => default (-1) (dict_get COLOR_NAMES (lower name))
  end.

(** ** Theme editor

    A key press in [theme_editor]: [q] or Escape, the arrows, Enter with the
    reply to the prompt it opens ([None]: the prompt was left without a
    reply), [s] or [S], a read that raised, and any other key. *)
Inductive theme_key :=
  | TQuit
  | TUp
  | TDown
  | TEnter (reply : option str)
  | TSave
  | TNoKey
  | TOther.

(** Where [theme_editor] stands after the key presses received: it has
    returned after a save or after a quit, with [st.cfg] as it is then; it
    has raised; or it is still open, with its copy of the theme and the
    selected row. *)
Inductive theme_outcome :=
  | ThemeSaved (cfg : list (str * json))
  | ThemeLeft (cfg : list (str * json))
  | ThemeRaised
  | ThemeOpen (theme : list (str * json)) (idx : Z).

(** The [while True] loop of [theme_editor] over the key presses [evs].  The
    calls that draw the list are taken to succeed. *)
Fixpoint theme_loop `{PyStr} (cfg : list (str * json)) (keys : list str)
    (theme : list (str * json)) (idx : Z) (evs : list theme_key) : theme_outcome :=
  match evs with
  | [] => ThemeOpen theme idx
  | ev :: evs' =>
      match ev with
      | TQuit => ThemeLeft cfg
      | TUp => theme_loop cfg keys theme (Z.max 0 (idx - 1)) evs'
      | TDown => theme_loop cfg keys theme (Z.min (len keys - 1) (idx + 1)) evs'
      | TEnter reply =>
          match getitem keys idx with
          | None => ThemeRaised
          | Some key =>
              match reply with
              | Some newv =>
                  theme_loop cfg keys (dict_set theme key (JStr (strip newv))) idx evs'
              | None => theme_loop cfg keys theme idx evs'
              end
          end
      | TSave => ThemeSaved (dict_set cfg (lit "theme") (JDict theme))
      | TNoKey => theme_loop cfg keys theme idx evs'
      | TOther => theme_loop cfg keys theme idx evs'
      end
  end.

(** [theme_editor] on the configuration [st.cfg]:
    [cfg.setdefault("theme", {}).copy()], the list of the keys of the copy,
    then the loop.  Only an object has [setdefault], and only an object has
    both [copy] and [keys]. *)
Definition theme_editor `{PyStr} (cfg : json) (evs : list theme_key)
    : theme_outcome :=
  match cfg with
  | JDict kv =>
      let kv :=
        match dict_get kv (lit "theme") with
        | Some _ => kv
        | None => dict_set kv (lit "theme") (JDict [])
        end in
      match dict_get kv (lit "theme") with
      | Some (JDict theme) => theme_loop kv theme.*1 theme 0 evs
      | _ => ThemeRaised
      end
  | _ => ThemeRaised
  end.

(** The theme has an entry for every key of [DEFAULT_CONFIG["theme"]]. *)
Definition has_default_keys (theme : list (str * json)) : Prop :=
  ∀ k, k ∈ default_theme.*1 → is_Some (dict_get theme k).

(** A theme of the user: two colours of their own and a key the program does
    not know. *)
Definition user_theme : list (str * json) :=
  [ (lit "header_bg", JStr (lit "Magenta")); (lit "accent", JStr (lit "red"));
    (lit "gutter_fg", JStr (lit "")) ].

(** ** Proof automation *)

(** Case analysis on the tests of [clamp]. *)
Ltac clamp_cases :=
  unfold clamp, clamp_pin, clamp_fields, selected_index, total in *;
  repeat (case_match; simpl in * );
  repeat match goal with
  | H : (_ <? _) = _ |- _ => first [apply Z.ltb_lt in H | apply Z.ltb_ge in H]
  | H : (_ >? _) = _ |- _ => rewrite Z.gtb_ltb in H
  | H : (_ <=? _) = _ |- _ => first [apply Z.leb_le in H | apply Z.leb_gt in H]
  | H : (_ >=? _) = _ |- _ => rewrite Z.geb_leb in H
  | H : (_ =? _) = _ |- _ => first [apply Z.eqb_eq in H | apply Z.eqb_neq in H]
  end.

(** Case analysis on the tests of the arrow keys. *)
Ltac arrow_cases :=
  unfold key_down, key_up, viewport_ok, selected_index, total in *;
  repeat (case_match; simpl in * );
  repeat match goal with
  | H : (_ <? _) = _ |- _ => first [apply Z.ltb_lt in H | apply Z.ltb_ge in H]
  | H : (_ >? _) = _ |- _ => rewrite Z.gtb_ltb in H
  end.

(** * Properties *)

(** ** Viewport *)

Lemma total_nonneg st : 0 ≤ total st.
Proof. unfold total, len. lia. Qed.

Lemma clamp_frame st :
  lines (clamp st) = lines st ∧ window_h (clamp st) = window_h st.
Proof.
  unfold clamp, clamp_pin, clamp_fields.
  repeat (case_match; simpl); auto.
Qed.

Lemma clamp_total st : total (clamp st) = total st.
Proof. unfold total. by rewrite (proj1 (clamp_frame st)). Qed.

Lemma clamp_viewport_ok st : 1 ≤ window_h st → viewport_ok (clamp st).
Proof.
  intros Hh. pose proof (total_nonneg st) as Hn.
  unfold viewport_ok. clamp_cases; lia.
Qed.

Lemma clamp_fixed st : 1 ≤ window_h st → viewport_ok st → clamp st = st.
Proof.
  intros Hh (Ht & Hs & Hin & Hz). pose proof (total_nonneg st) as Hn.
  destruct st as [fn ls tr t s h w m term ms mi msg tp].
  simpl in *.
  clamp_cases; try lia; unfold set_sel, set_top; simpl; f_equal; lia.
Qed.

(** C1. For a buffer of [L] lines and a window of height [H ≥ 1], whatever
    [top] and [sel] were, after [clamp]: [0 ≤ top ≤ max(0, L−H)],
    [0 ≤ sel < H], [top + sel < L] when [L > 0], and both are [0] when
    [L = 0].  When the selected index left by the range checks of the two
    fields reaches past the buffer, the selection is the last line and
    [top = max(0, last − (H − 1))]. *)
Theorem clamp_establishes_invariant (st : EditorState) :
  1 ≤ window_h st →
  0 ≤ top (clamp st) ≤ Z.max 0 (total st - window_h st) ∧
  0 ≤ sel (clamp st) < window_h st ∧
  (0 < total st → top (clamp st) + sel (clamp st) < total st) ∧
  (total st = 0 → top (clamp st) = 0 ∧ sel (clamp st) = 0) ∧
  (0 < total st → total st ≤ selected_index (clamp_fields st) →
     selected_index (clamp st) = total st - 1 ∧
     top (clamp st) = Z.max 0 ((total st - 1) - (window_h st - 1))).
Proof.
  intros Hh. pose proof (clamp_viewport_ok st Hh) as (Ht & Hs & Hin & Hz).
  rewrite clamp_total in *. rewrite (proj2 (clamp_frame st)) in *.
  repeat split; try tauto; try lia.
  - clear Ht Hs Hin Hz. pose proof (total_nonneg st). clamp_cases; lia.
  - clear Ht Hs Hin Hz. pose proof (total_nonneg st). clamp_cases; lia.
Qed.

Lemma clamp_establishes_invariant_witness :
  1 ≤ window_h (three_lines 0 9 5) ∧
  selected_index (clamp (three_lines 0 9 5)) = 2 ∧
  top (clamp (three_lines 0 9 5)) = 0.
Proof.
  split; [vm_compute; discriminate|].
  apply (clamp_establishes_invariant (three_lines 0 9 5));
    [vm_compute; discriminate | reflexivity | vm_compute; discriminate].
Defined.

(** C9. [clamp] is idempotent: with a window of height [H ≥ 1], a second
    [clamp] right after the first changes nothing. *)
Theorem clamp_idempotent (st : EditorState) :
  1 ≤ window_h st → clamp (clamp st) = clamp st.
Proof.
  intros Hh. apply clamp_fixed.
  - by rewrite (proj2 (clamp_frame st)).
  - by apply clamp_viewport_ok.
Qed.

Lemma clamp_idempotent_witness :
  clamp (clamp (three_lines 7 (-4) 2)) = clamp (three_lines 7 (-4) 2).
Proof. apply clamp_idempotent. vm_compute. discriminate. Defined.

(** *** Arrow keys *)

Lemma key_down_total st : total (key_down st) = total st.
Proof. unfold key_down, total. repeat case_match; reflexivity. Qed.

Lemma key_down_advances st :
  selected_index st + 1 < total st →
  selected_index (key_down st) = selected_index st + 1.
Proof.
  intros Hlt. unfold key_down.
  apply Z.ltb_lt in Hlt as ->.
  unfold selected_index. case_match; simpl; lia.
Qed.

Lemma visited_ascending n : ∀ st,
  selected_index st + Z.of_nat n ≤ total st →
  visited n st = (λ k : nat, selected_index st + Z.of_nat k) <$> seq 0 n.
Proof.
  induction n as [|n IH]; intros st Hle; [reflexivity|].
  simpl. f_equal; [lia|].
  destruct n as [|n]; [reflexivity|].
  rewrite IH.
  - rewrite key_down_advances by lia.
    rewrite <- fmap_S_seq, <- list_fmap_compose.
    apply list_fmap_ext. intros _ k _. simpl. lia.
  - rewrite key_down_total, key_down_advances; lia.
Qed.

(** C5. In a state that satisfies the viewport invariant, arrow-down on the
    last line and arrow-up on the first change nothing (but the status
    line, which every arrow key blanks); a move that stays inside the window
    changes [sel] only; a move past the window edge shifts [top] by one and
    leaves [sel] at the edge; both keys keep the invariant.  From
    [top = 0], [sel = 0] over [L] lines, with a window lower than [L], the
    first [L] states under repeated arrow-down select the lines
    [0, 1, ..., L−1] in this order. *)
Theorem arrow_keys_move_selection (st : EditorState) :
  viewport_ok st →
  (total st ≤ selected_index st + 1 →
     key_down st = set_status st [] (lit "info")) ∧
  (selected_index st = 0 →
     key_up st = set_status st [] (lit "info")) ∧
  (selected_index st + 1 < total st → sel st + 1 < window_h st →
     key_down st = set_status (set_sel st (sel st + 1)) [] (lit "info")) ∧
  (0 < sel st →
     key_up st = set_status (set_sel st (sel st - 1)) [] (lit "info")) ∧
  (selected_index st + 1 < total st → sel st = window_h st - 1 →
     key_down st = set_status (set_top st (top st + 1)) [] (lit "info")) ∧
  (sel st = 0 → 0 < top st →
     key_up st = set_status (set_top st (top st - 1)) [] (lit "info")) ∧
  viewport_ok (key_down st) ∧
  viewport_ok (key_up st) ∧
  (top st = 0 → sel st = 0 → window_h st < total st →
     visited (Z.to_nat (total st)) st = Z.of_nat <$> seq 0 (Z.to_nat (total st))).
Proof.
  intros Hok.
  repeat match goal with |- _ ∧ _ => split end.
  - intros Hend. unfold key_down.
    by apply Z.ltb_ge in Hend as ->.
  - intros Hz. destruct Hok as (Ht & Hs & _).
    unfold selected_index in Hz. unfold key_up.
    assert (sel st = 0) as Hs0 by lia. assert (top st = 0) as Ht0 by lia.
    by rewrite Hs0, Ht0.
  - intros Hlt Hin. unfold key_down.
    apply Z.ltb_lt in Hlt as ->. by apply Z.ltb_lt in Hin as ->.
  - intros Hpos. unfold key_up. rewrite Z.gtb_ltb.
    by apply Z.ltb_lt in Hpos as ->.
  - intros Hlt Hedge. unfold key_down.
    apply Z.ltb_lt in Hlt as ->.
    assert ((sel st + 1 <? window_h st) = false) as -> by (apply Z.ltb_ge; lia).
    done.
  - intros Hs0 Hpos. unfold key_up. rewrite !Z.gtb_ltb, Hs0. simpl.
    by apply Z.ltb_lt in Hpos as ->.
  - arrow_cases; lia.
  - arrow_cases; lia.
  - intros Ht0 Hs0 _. pose proof (total_nonneg st).
    rewrite visited_ascending.
    + apply list_fmap_ext. intros _ k _. unfold selected_index. lia.
    + unfold selected_index. lia.
Qed.

Lemma arrow_keys_move_selection_witness :
  visited 3 (three_lines 0 0 2) = [0; 1; 2].
Proof.
  assert (viewport_ok (three_lines 0 0 2)) as Hok.
  { vm_compute. intuition discriminate. }
  pose proof (arrow_keys_move_selection (three_lines 0 0 2) Hok)
    as (_ & _ & _ & _ & _ & _ & _ & _ & Hseq).
  apply Hseq; [reflexivity | reflexivity | vm_compute; reflexivity].
Defined.

(** ** Search cursor *)

Lemma clamp_search st :
  search_matches (clamp st) = search_matches st ∧
  match_index (clamp st) = match_index st.
Proof.
  unfold clamp, clamp_pin, clamp_fields.
  repeat (case_match; simpl); auto.
Qed.

Section SearchCursor.
Context `{PyStr}.

Lemma goto_search_matches st forward :
  search_matches (goto_search_match st forward) = search_matches st.
Proof.
  unfold goto_search_match.
  destruct (search_matches st) as [|m ms] eqn:Hms; simpl; [done|].
  rewrite (proj1 (clamp_search _)). simpl.
  by case_match.
Qed.

Lemma goto_match_index st forward :
  search_matches st ≠ [] →
  match_index (goto_search_match st forward) =
    if match_index st =? -1 then 0
    else (match_index st + (if forward then 1 else -1)) `mod` len (search_matches st).
Proof.
  intros Hne. unfold goto_search_match.
  destruct (search_matches st) as [|m ms] eqn:Hms; [done|]. simpl.
  rewrite (proj2 (clamp_search _)). simpl.
  by case_match.
Qed.

Lemma matches_len_pos (ms : list Z) : ms ≠ [] → 0 < len ms.
Proof. destruct ms; [done|]. unfold len. simpl. lia. Qed.

Lemma goto_match_index_range st forward :
  search_matches st ≠ [] →
  0 ≤ match_index (goto_search_match st forward) < len (search_matches st).
Proof.
  intros Hne. rewrite goto_match_index by done.
  pose proof (matches_len_pos _ Hne).
  case_match; [lia|]. by apply Z.mod_pos_bound.
Qed.

(** The subscript of [goto_search_match] never raises [IndexError]. *)
Lemma goto_target_in_range st forward :
  search_matches st ≠ [] →
  is_Some (getitem (search_matches st) (match_index (goto_search_match st forward))).
Proof.
  intros Hne. pose proof (goto_match_index_range st forward Hne) as Hr.
  unfold getitem. assert ((match_index (goto_search_match st forward) <? 0) = false) as ->
    by (apply Z.ltb_ge; lia).
  apply lookup_lt_is_Some. unfold len in Hr. lia.
Qed.

Lemma goto_forward_iter st (k : nat) :
  0 ≤ match_index st < len (search_matches st) →
  search_matches (Nat.iter k (λ s, goto_search_match s true) st) = search_matches st ∧
  match_index (Nat.iter k (λ s, goto_search_match s true) st) =
    (match_index st + Z.of_nat k) `mod` len (search_matches st).
Proof.
  intros Hr. induction k as [|k [IHms IHmi]]; simpl.
  - split; [done|]. rewrite Z.add_0_r, Z.mod_small; lia.
  - rewrite goto_search_matches. split; [done|].
    assert (search_matches st ≠ []) as Hne.
    { intros E. rewrite E in Hr. unfold len in Hr. simpl in Hr. lia. }
    rewrite goto_match_index by (by rewrite IHms).
    rewrite IHms, IHmi.
    pose proof (Z.mod_pos_bound (match_index st + Z.of_nat k)
                  (len (search_matches st))) as Hb.
    assert (((match_index st + Z.of_nat k) `mod` len (search_matches st) =? -1) = false)
      as -> by (apply Z.eqb_neq; lia).
    rewrite Zplus_mod_idemp_l. f_equal. lia.
Qed.

Lemma goto_there_and_back st forward :
  0 ≤ match_index st < len (search_matches st) →
  match_index (goto_search_match (goto_search_match st forward) (negb forward))
    = match_index st.
Proof.
  intros Hr.
  assert (search_matches st ≠ []) as Hne.
  { intros E. rewrite E in Hr. unfold len in Hr. simpl in Hr. lia. }
  pose proof (goto_match_index_range st forward Hne) as Hr1.
  rewrite goto_match_index by (by rewrite goto_search_matches).
  rewrite goto_search_matches.
  assert ((match_index (goto_search_match st forward) =? -1) = false) as ->
    by (apply Z.eqb_neq; lia).
  rewrite goto_match_index by done.
  assert ((match_index st =? -1) = false) as -> by (apply Z.eqb_neq; lia).
  rewrite Zplus_mod_idemp_l.
  replace (match_index st + (if forward then 1 else -1) +
             (if negb forward then 1 else -1))
    with (match_index st) by (destruct forward; simpl; lia).
  apply Z.mod_small; lia.
Qed.

(** C3. [goto_search_match] with no match only sets the status message;
    from the cursor [-1] it selects match 0; otherwise it moves the cursor by
    [+1] or [-1] modulo the number of matches, the result never being
    negative.  The match list is left as it is.  From a valid cursor, as many
    forward steps as there are matches come back to the same match, and a
    backward step undoes a forward step (and conversely). *)
Theorem goto_search_match_cycles (st : EditorState) (forward : bool) :
  (search_matches st = [] →
     goto_search_match st forward = set_status st (lit "No matches") (lit "err")) ∧
  (search_matches st ≠ [] → match_index st = -1 →
     match_index (goto_search_match st forward) = 0) ∧
  (search_matches st ≠ [] → match_index st ≠ -1 →
     match_index (goto_search_match st forward) =
       (match_index st + (if forward then 1 else -1)) `mod` len (search_matches st) ∧
     0 ≤ match_index (goto_search_match st forward) < len (search_matches st)) ∧
  search_matches (goto_search_match st forward) = search_matches st ∧
  (0 ≤ match_index st < len (search_matches st) →
     match_index
       (Nat.iter (length (search_matches st)) (λ s, goto_search_match s true) st)
       = match_index st ∧
     match_index (goto_search_match (goto_search_match st true) false)
       = match_index st ∧
     match_index (goto_search_match (goto_search_match st false) true)
       = match_index st).
Proof.
  repeat match goal with |- _ ∧ _ => split end.
  - intros Hnil. unfold goto_search_match. by rewrite Hnil.
  - intros Hne Hmi. rewrite goto_match_index by done. by rewrite Hmi.
  - intros Hne Hmi. split; [|by apply goto_match_index_range].
    rewrite goto_match_index by done.
    by apply Z.eqb_neq in Hmi as ->.
  - apply goto_search_matches.
  - intros Hr. repeat split.
    + rewrite (proj2 (goto_forward_iter st _ Hr)).
      fold (len (search_matches st)).
      rewrite <- (Z.mul_1_l (len (search_matches st))) at 1.
      rewrite Z.mod_add by lia.
      apply Z.mod_small; lia.
    + by apply (goto_there_and_back st true).
    + by apply (goto_there_and_back st false).
Qed.

End SearchCursor.

(** The scenario of the specification: [foo] matches the lines 0 and 1; from
    no current match the cursor goes to match 0 (line 0), then to match 1
    (line 1), then wraps to match 0. *)
Example goto_search_match_scenario :
  search_matches foo_search = [0; 1] ∧
  match_index (goto_search_match foo_search_none true) = 0 ∧
  selected_index (goto_search_match foo_search_none true) = 0 ∧
  match_index (Nat.iter 2 (λ s, goto_search_match s true) foo_search_none) = 1 ∧
  selected_index (Nat.iter 2 (λ s, goto_search_match s true) foo_search_none) = 1 ∧
  match_index (Nat.iter 3 (λ s, goto_search_match s true) foo_search_none) = 0 ∧
  selected_index (Nat.iter 3 (λ s, goto_search_match s true) foo_search_none) = 0.
Proof. by vm_compute. Qed.

(** ** Search index *)

Lemma startswith_spec (s t : str) :
  startswith s t = true ↔ ∃ post, s = t ++ post.
Proof.
  revert s. induction t as [|c t IH]; intros s; simpl.
  - split; [eauto|done].
  - destruct s as [|d s].
    + split; [done|]. by intros [post ?].
    + rewrite andb_true_iff, bool_decide_eq_true, IH. split.
      * intros [-> [post ->]]. eauto.
      * intros [post [= -> ->]]. eauto.
Qed.

Lemma str_in_spec (t s : str) :
  str_in t s = true ↔ ∃ pre post, s = pre ++ t ++ post.
Proof.
  induction s as [|d s IH]; simpl; rewrite orb_true_iff, startswith_spec.
  - split.
    + intros [[post ->]|?]; [|done]. by exists [], post.
    + intros (pre & post & Heq). left.
      symmetry in Heq. apply app_eq_nil in Heq as [-> Heq]. eauto.
  - rewrite IH. split.
    + intros [[post ->]|(pre & post & ->)]; [by exists [], post|].
      by exists (d :: pre), post.
    + intros ([|e pre] & post & Heq); simpl in Heq.
      * left. eauto.
      * right. injection Heq as -> ->. eauto.
Qed.

Section SearchIndex.
Context `{PyStr}.

Lemma scan_lines_acc t ls : ∀ i acc,
  scan_lines t i ls acc = acc ++ scan_lines t i ls [].
Proof.
  induction ls as [|ln ls IH]; intros i acc; simpl.
  - by rewrite app_nil_r.
  - rewrite IH. rewrite (IH _ (if str_in t (lower ln) then _ else _)).
    case_match; simpl; [|done]. by rewrite <- app_assoc.
Qed.

Lemma scan_lines_elem t ls : ∀ i x,
  x ∈ scan_lines t i ls [] ↔
  ∃ (k : nat) ln, ls !! k = Some ln ∧ x = i + Z.of_nat k ∧ str_in t (lower ln) = true.
Proof.
  induction ls as [|ln ls IH]; intros i x; simpl.
  - split; [by intros ?%elem_of_nil|]. by intros (k & l & ? & _).
  - rewrite scan_lines_acc, elem_of_app, IH. split.
    + intros [Hx|(k & l & Hk & -> & Hin)].
      * destruct (str_in t (lower ln)) eqn:Hin; [|by apply elem_of_nil in Hx].
        apply list_elem_of_singleton in Hx as ->.
        exists 0%nat, ln. split_and!; [done|lia|done].
      * exists (S k), l. split_and!; [done|lia|done].
    + intros ([|k] & l & Hk & -> & Hin); simpl in Hk.
      * injection Hk as ->. left. rewrite Hin.
        apply list_elem_of_singleton. lia.
      * right. exists k, l. split_and!; [done|lia|done].
Qed.

Lemma scan_lines_sorted t ls : ∀ i, StronglySorted Z.lt (scan_lines t i ls []).
Proof.
  induction ls as [|ln ls IH]; intros i; simpl; [constructor|].
  rewrite scan_lines_acc. case_match; simpl; [|apply IH].
  constructor; [apply IH|].
  apply Forall_forall. intros x (k & l & _ & -> & _)%scan_lines_elem. lia.
Qed.

Lemma first_at_or_after_spec sel_ix ms : ∀ idx,
  match first_at_or_after sel_ix idx ms with
  | Some r =>
      ∃ (k : nat) li, r = idx + Z.of_nat k ∧ ms !! k = Some li ∧ sel_ix ≤ li ∧
        ∀ (j : nat) lj, (j < k)%nat → ms !! j = Some lj → lj < sel_ix
  | None => ∀ li, li ∈ ms → li < sel_ix
  end.
Proof.
  induction ms as [|m ms IH]; intros idx; simpl.
  - by intros li ?%elem_of_nil.
  - destruct (m >=? sel_ix) eqn:Hge.
    + exists 0%nat, m. split_and!; [lia|done|lia|]. intros j lj ?. lia.
    + specialize (IH (idx + 1)).
      destruct (first_at_or_after sel_ix (idx + 1) ms) as [r|].
      * destruct IH as (k & li & -> & Hk & Hli & Hmin).
        exists (S k), li. split_and!; [lia|done|done|].
        intros [|j] lj Hj Hlj; simpl in Hlj.
        -- injection Hlj as <-. lia.
        -- apply (Hmin j); [lia|done].
      * intros li [->|Hin]%elem_of_cons; [lia|by apply IH].
Qed.

Lemma recompute_search_lines st : lines (recompute_search st) = lines st.
Proof.
  unfold recompute_search. simpl.
  repeat (case_match; simpl); reflexivity.
Qed.

Lemma recompute_search_matches st c term :
  search_term st = Some (c :: term) →
  search_matches (recompute_search st) = scan_lines (lower (c :: term)) 0 (lines st) [].
Proof.
  intros Hterm. unfold recompute_search. simpl. rewrite Hterm. simpl.
  repeat (case_match; simpl); congruence.
Qed.

Lemma recompute_search_cursor st c term :
  search_term st = Some (c :: term) →
  match_index (recompute_search st) =
    match search_matches (recompute_search st) with
    | [] => -1
    | _ :: _ =>
        default 0 (first_at_or_after (selected_index st) 0
                     (search_matches (recompute_search st)))
    end.
Proof.
  intros Hterm. rewrite (recompute_search_matches _ _ _ Hterm).
  unfold recompute_search. simpl. rewrite Hterm. simpl.
  destruct (scan_lines _ _ _ _) eqn:Hscan; simpl; [done|].
  unfold selected_index; simpl. by case_match.
Qed.

(** C2. [recompute_search]: without a term (absent or empty) the match list
    is empty and the cursor is [-1].  With a term, the match list is strictly
    ascending and holds exactly the indices of the lines that contain the term
    case-insensitively; the cursor is [-1] if there is no match, else the
    position of the first match at or after the selected line, else [0]. *)
Theorem recompute_search_spec (st : EditorState) :
  (truthy (search_term st) = false →
     search_matches (recompute_search st) = [] ∧
     match_index (recompute_search st) = -1) ∧
  (∀ term, search_term st = Some term → term ≠ [] →
     StronglySorted Z.lt (search_matches (recompute_search st)) ∧
     (∀ i, i ∈ search_matches (recompute_search st) ↔
           0 ≤ i ∧ ∃ ln, lines st !! Z.to_nat i = Some ln ∧ contains_ci term ln) ∧
     (search_matches (recompute_search st) = [] →
        match_index (recompute_search st) = -1) ∧
     (∀ (idx : nat) li,
        search_matches (recompute_search st) !! idx = Some li →
        selected_index st ≤ li →
        (∀ (j : nat) lj, (j < idx)%nat →
           search_matches (recompute_search st) !! j = Some lj →
           lj < selected_index st) →
        match_index (recompute_search st) = Z.of_nat idx) ∧
     (search_matches (recompute_search st) ≠ [] →
        (∀ li, li ∈ search_matches (recompute_search st) → li < selected_index st) →
        match_index (recompute_search st) = 0)).
Proof.
  split.
  - unfold truthy, recompute_search. simpl.
    destruct (search_term st) as [[|c term]|]; [done| |done]. discriminate.
  - intros [|c term] Hterm Hne; [done|]. clear Hne.
    pose proof (recompute_search_cursor st c term Hterm) as Hcur.
    pose proof (first_at_or_after_spec (selected_index st)
                  (search_matches (recompute_search st)) 0) as Hfirst.
    rewrite (recompute_search_matches st c term Hterm) in *.
    split_and!.
    + apply scan_lines_sorted.
    + intros i. rewrite scan_lines_elem. unfold contains_ci. split.
      * intros (k & ln & Hk & -> & Hin). split; [lia|].
        exists ln. rewrite Z.add_0_l, Nat2Z.id. split; [done|].
        by apply str_in_spec.
      * intros (Hi & ln & Hk & Hin). exists (Z.to_nat i), ln.
        split_and!; [done|lia|]. by apply str_in_spec.
    + intros Hnil. by rewrite Hnil in Hcur.
    + intros idx li Hidx Hli Hmin.
      destruct (scan_lines _ _ _ _) as [|m ms] eqn:Hscan; [done|].
      rewrite Hcur.
      destruct (first_at_or_after _ _ _) as [r|]; simpl.
      * destruct Hfirst as (k & lk & -> & Hk & Hlk & Hkmin).
        destruct (lt_eq_lt_dec k idx) as [[Hlt| ->]|Hgt]; [|lia|].
        -- specialize (Hmin k lk Hlt Hk). lia.
        -- specialize (Hkmin idx li Hgt Hidx). lia.
      * assert (li < selected_index st); [|lia].
        apply Hfirst. by eapply list_elem_of_lookup_2.
    + intros Hne Hall.
      destruct (scan_lines _ _ _ _) as [|m ms] eqn:Hscan; [done|].
      rewrite Hcur.
      destruct (first_at_or_after _ _ _) as [r|]; simpl; [|done].
      destruct Hfirst as (k & lk & -> & Hk & Hlk & Hkmin).
      assert (lk < selected_index st); [|lia].
      apply Hall. by eapply list_elem_of_lookup_2.
Qed.

End SearchIndex.

(** ** Highlight spans *)

Lemma slice_index_inside n k : 0 ≤ k ≤ n → slice_index n k = k.
Proof.
  intros Hk. unfold slice_index.
  destruct (Z.ltb_spec k 0); lia.
Qed.

Lemma slice_inside {A} (s : list A) a b :
  0 ≤ a ≤ b → b ≤ len s →
  slice s a b = take (Z.to_nat (b - a)) (drop (Z.to_nat a) s).
Proof.
  intros Ha Hb. unfold slice. by rewrite !slice_index_inside by lia.
Qed.

Lemma slice_from_inside {A} (s : list A) a :
  0 ≤ a ≤ len s → slice_from s a = drop (Z.to_nat a) s.
Proof.
  intros Ha. unfold slice_from. by rewrite slice_index_inside.
Qed.

Lemma greedy_skip occ lt cur last spans :
  ¬ occ cur → greedy occ lt (cur + 1) last spans → greedy occ lt cur last spans.
Proof.
  intros Hno. destruct spans as [|[s e] spans]; simpl.
  - intros Hnone j Hj. destruct (decide (j = cur)) as [->|]; [done|].
    apply Hnone. lia.
  - intros (Hs & Hocc & He & Hbefore & Hrest). split_and!; try done; try lia.
    intros j Hj. destruct (decide (j = cur)) as [->|]; [done|].
    apply Hbefore. lia.
Qed.

Lemma greedy_well_spaced occ lt last spans : 1 ≤ lt → ∀ cur,
  greedy occ lt cur last spans → well_spaced cur (last + lt) spans.
Proof.
  intros Hlt. induction spans as [|[s e] spans IH]; intros cur; simpl; [done|].
  intros (Hs & _ & -> & _ & Hrest). split_and!; try lia. by apply IH.
Qed.

Lemma find_loop_greedy line low t lt : 1 ≤ lt → ∀ fuel i res,
  len line - lt - i < Z.of_nat fuel →
  ∃ spans,
    find_loop fuel line low t lt i res = Some (res ++ spans) ∧
    greedy (λ j, slice low j (j + lt) = t) lt i (len line - lt) spans.
Proof.
  intros Hlt. induction fuel as [|fuel IH]; intros i res Hfuel.
  - exists []. simpl. destruct (Z.leb_spec i (len line - lt)); [lia|].
    split; [by rewrite app_nil_r|]. intros j Hj. lia.
  - simpl. destruct (Z.leb_spec i (len line - lt)) as [Hin|Hout].
    + case_bool_decide as Hocc.
      * destruct (IH (i + lt) (res ++ [(i, i + lt)])) as (spans & -> & Hg); [lia|].
        exists ((i, i + lt) :: spans). split; [by rewrite <- app_assoc|].
        simpl. split_and!; try done; try lia.
      * destruct (IH (i + 1) res) as (spans & -> & Hg); [lia|].
        exists spans. split; [done|]. by apply greedy_skip.
    + exists []. split; [by rewrite app_nil_r|]. intros j Hj. lia.
Qed.

Lemma segments_concat (line : str) spans : ∀ cur,
  0 ≤ cur → well_spaced cur (len line) spans →
  concat (segments line cur spans) = drop (Z.to_nat cur) line.
Proof.
  induction spans as [|[s e] spans IH]; intros cur Hcur; simpl.
  - intros _. destruct (Z.le_gt_cases cur (len line)).
    + rewrite app_nil_r. by apply slice_from_inside.
    + rewrite app_nil_r. unfold slice_from, slice_index.
      destruct (Z.ltb_spec cur 0); [lia|].
      rewrite Z.min_r by lia. unfold len in *.
      rewrite !drop_ge; [done|lia|lia].
  - intros (Hs & He & Hhi & Hrest).
    rewrite IH by (done || lia).
    rewrite !slice_inside by lia.
    replace (Z.to_nat s) with (Z.to_nat cur + Z.to_nat (s - cur))%nat by lia.
    rewrite <- drop_drop.
    replace (Z.to_nat e) with
      (Z.to_nat cur + (Z.to_nat (s - cur) + Z.to_nat (e - s)))%nat by lia.
    rewrite <- !drop_drop.
    by rewrite !take_drop.
Qed.

Section Spans.
Context `{PyStr}.

(** [find_positions] returns: its loop ends, and the spans are those of the
    greedy scan of the lowercase line for the lowercase term. *)
Lemma find_positions_greedy line term :
  ∃ spans, find_positions line term = Some spans ∧
    match term with
    | Some (c :: term') =>
        greedy (λ j, slice (lower line) j (j + len (lower (c :: term')))
                       = lower (c :: term'))
          (len (lower (c :: term'))) 0 (len line - len (lower (c :: term'))) spans
    | _ => spans = []
    end.
Proof.
  destruct term as [[|c term]|]; simpl; [by exists []| |by exists []].
  assert (1 ≤ len (lower (c :: term))) as Hlt.
  { destruct (lower (c :: term)) eqn:Hlow; [by apply lower_nil_inv in Hlow|].
    unfold len. simpl. lia. }
  destruct (find_loop_greedy line (lower line) (lower (c :: term)) _ Hlt
              (length line) 0 []) as (spans & Hrun & Hg).
  { unfold len at 1. lia. }
  exists spans. by split.
Qed.

(** C10. The spans of [find_positions] are ascending, do not overlap and
    lie within [[0, len(line)]]; the segments cut along them (the text before
    each span, the span, and the tail after the last span) concatenate to the
    line. *)
Theorem spans_rebuild_line (line : str) (term : option str) :
  ∃ spans, find_positions line term = Some spans ∧
    well_spaced 0 (len line) spans ∧
    concat (segments line 0 spans) = line.
Proof.
  destruct (find_positions_greedy line term) as (spans & Hrun & Hg).
  exists spans. split; [done|].
  assert (well_spaced 0 (len line) spans) as Hws.
  { destruct term as [[|c term]|]; try by subst spans.
    assert (1 ≤ len (lower (c :: term))) as Hlt.
    { destruct (lower (c :: term)) eqn:Hlow; [by apply lower_nil_inv in Hlow|].
      unfold len. simpl. lia. }
    apply (greedy_well_spaced _ _ _ _ Hlt) in Hg.
    by replace (len line - len (lower (c :: term)) + len (lower (c :: term)))
      with (len line) in Hg by lia. }
  split; [done|]. by rewrite segments_concat.
Qed.

End Spans.

(** *** Spans and case mapping *)



Section SpansPointwise.
Context `{PyStr}.


End SpansPointwise.

(** C4. On the line [İba] and the term [b], [find_positions] returns the one
    span [(2, 3)], which is the [a] of the line; the [b] at [(1, 2)] is not
    returned.  The lowercase form of U+0130 is two code points long, and
    the loop takes positions in the lowercase line for positions in the
    line. *)
Theorem find_positions_dotted_capital_i :
  find_positions dotted_line (Some (lit "b")) = Some [(2, 3)] ∧
  slice dotted_line 2 3 = lit "a" ∧
  slice dotted_line 1 2 = lit "b" ∧
  lower dotted_line = [105%N; 775%N; 98%N; 97%N].
Proof. by vm_compute. Qed.

(** The scenario of the specification: [aa] in [aaaa]. *)
Example find_positions_aaaa :
  find_positions (lit "aaaa") (Some (lit "aa")) = Some [(0, 2); (2, 4)] ∧
  find_positions (lit "aaaa") (Some []) = Some [] ∧
  find_positions (lit "aaaa") None = Some [].
Proof. by vm_compute. Qed.

(** ** Loader and writer *)

Lemma split_lf_nonempty s : split_lf s ≠ [].
Proof. destruct s as [|c s]; simpl; [done|]. by repeat case_match. Qed.

Lemma join_split_lf s : join_lf (split_lf s) = s.
Proof.
  induction s as [|c s IH]; [done|]. simpl.
  pose proof (split_lf_nonempty s) as Hne.
  case_bool_decide as Hc.
  - subst c. simpl. destruct (split_lf s) as [|l ls]; [done|].
    simpl in *. by rewrite IH.
  - destruct (split_lf s) as [|l ls]; [done|].
    simpl in *. destruct ls; simpl in *; by rewrite <- IH.
Qed.

Lemma last_cons_cons {A} (x y : A) (xs : list A) :
  last (x :: y :: xs) = last (y :: xs).
Proof. done. Qed.

Lemma last_split_lf s :
  last (split_lf s) = Some [] ↔ s = [] ∨ last s = Some LF.
Proof.
  induction s as [|c s IH]; [split; [by left|done]|].
  pose proof (join_split_lf s) as Hjoin.
  simpl split_lf.
  destruct (split_lf s) as [|l ls] eqn:Hsplit; [by apply split_lf_nonempty in Hsplit|].
  case_bool_decide as Hc.
  - subst c. rewrite last_cons_cons, IH.
    destruct s as [|d s]; [split; intros _; [by right|by left]|].
    rewrite last_cons_cons. split; (intros [?|?]; [done|by right]).
  - destruct ls as [|l' ls].
    + simpl in Hjoin. subst l. split; [done|].
      intros [?|Hl]; [done|].
      destruct s as [|d s]; [simpl in Hl; congruence|].
      rewrite last_cons_cons in Hl.
      assert (Some (d :: s) = Some []) as [=]. apply IH. by right.
    + rewrite last_cons_cons, IH.
      destruct s as [|d s]; [done|].
      rewrite last_cons_cons. split; (intros [?|?]; [done|by right]).
Qed.

(** What a load followed by a save writes: the text of the file, once more
    terminated when it ended with a newline. *)
Lemma read_write_text raw :
  str_in [CR; LF] raw = false →
  file_text (read_text raw).1 (read_text raw).2 =
    if ends_with_lf raw then raw ++ [LF] else raw.
Proof.
  intros Hcrlf. unfold read_text, file_text. rewrite Hcrlf. simpl.
  destruct (ends_with_lf raw) eqn:Hend; simpl.
  - rewrite andb_false_r. by rewrite join_split_lf.
  - rewrite andb_true_r.
    destruct (decide (raw = [])) as [->|Hraw]; [done|].
    assert (last (split_lf raw) ≠ Some []) as Hlast.
    { rewrite last_split_lf. unfold ends_with_lf in Hend.
      apply bool_decide_eq_false in Hend. by intros [?|?]. }
    rewrite (bool_decide_eq_false_2 (last (split_lf raw) = Some [])) by done.
    rewrite andb_false_r. apply join_split_lf.
Qed.

Lemma load_then_save (d : disk) path raw :
  d !! path = Some (File raw) → str_in [CR; LF] raw = false →
  ∃ ls tr, read_file d path = Ok (ls, tr) ∧
    write_file d path ls tr =
      Ok (<[path := File (if ends_with_lf raw then raw ++ [LF] else raw)]> d).
Proof.
  intros Hfile Hcrlf. exists (read_text raw).1, (read_text raw).2.
  unfold read_file, write_file. rewrite Hfile.
  split; [by destruct (read_text raw)|].
  by rewrite read_write_text.
Qed.

(** C6. Loading [a.txt], whose content is the line [a] and its newline, gives
    the two lines [a] and the empty line with the trailing-newline flag set;
    saving them writes [a] followed by two newlines. *)
Theorem load_then_save_one_line :
  read_file one_line_disk (lit "a.txt") = Ok ([lit "a"; []], true) ∧
  (∃ d', write_file one_line_disk (lit "a.txt") [lit "a"; []] true = Ok d' ∧
         d' !! lit "a.txt" = Some (File (lit "a" ++ [LF; LF]))).
Proof.
  split; [by vm_compute|].
  eexists. split; [reflexivity|]. by rewrite lookup_insert_eq.
Qed.

(** ** Editor session *)

Lemma clamp_buffer st :
  lines (clamp st) = lines st ∧ trailing_nl (clamp st) = trailing_nl st ∧
  modified (clamp st) = modified st ∧ filename (clamp st) = filename st ∧
  search_term (clamp st) = search_term st.
Proof.
  unfold clamp, clamp_pin, clamp_fields.
  repeat (case_match; simpl); auto.
Qed.

Lemma draw_buffer h w st :
  lines (draw h w st) = lines st ∧ trailing_nl (draw h w st) = trailing_nl st ∧
  modified (draw h w st) = modified st ∧ filename (draw h w st) = filename st ∧
  search_term (draw h w st) = search_term st.
Proof. unfold draw. by destruct (clamp_buffer (set_window st (Z.max 1 (h - 2)) w)) as (-> & -> & -> & -> & ->). Qed.

Lemma draw_viewport_ok h w st : viewport_ok (draw h w st).
Proof. unfold draw. apply clamp_viewport_ok. simpl. lia. Qed.

Lemma set_status_lines st msg tp : lines (set_status st msg tp) = lines st.
Proof. done. Qed.

Section SessionFacts.
Context `{PyStr}.

Lemma goto_search_match_lines st forward :
  lines (goto_search_match st forward) = lines st.
Proof.
  unfold goto_search_match. destruct (search_matches st); simpl; [done|].
  rewrite (proj1 (clamp_buffer _)). simpl. by case_match.
Qed.

Lemma key_goto_lines n st st' : key_goto n st = Some st' → lines st' = lines st.
Proof.
  unfold key_goto. destruct n as [s|]; [|by intros [= <-]].
  case_match; [|by intros [= <-]].
  destruct (int_of_str (strip s)) as [v|]; simpl; [|done].
  intros [= <-]. simpl. by rewrite (proj1 (clamp_buffer _)).
Qed.

Lemma key_search_lines term st : lines (key_search term st) = lines st.
Proof.
  unfold key_search. destruct term as [s|]; [|done].
  case_bool_decide.
  - by rewrite set_status_lines, recompute_search_lines.
  - case_match.
    + by rewrite set_status_lines, recompute_search_lines.
    + by rewrite goto_search_match_lines, recompute_search_lines.
Qed.

Lemma key_save_spec st d :
  match write_file d (filename st) (lines st) (trailing_nl st) with
  | Ok dw =>
      key_save st d = Continue (set_status (set_modified st false) (lit "Saved") (lit "ok")) dw ∧
      dw !! filename st = Some (File (file_text (lines st) (trailing_nl st)))
  | Raise e =>
      key_save st d = Continue (set_status st (lit "Save error: " ++ e) (lit "err")) d ∧
      d !! filename st = Some (Faulty e)
  | SysExit => False
  end.
Proof.
  unfold key_save, write_file.
  destruct (d !! filename st) as [[raw|e]|] eqn:Hd; simpl;
    (split; [done|]); by rewrite ?lookup_insert_eq.
Qed.

(** C7. [s] (save): the turn goes on, with the line buffer and the
    trailing-newline flag as they were.  When [write_file] succeeds the
    modified flag is cleared; when it raises, the modified flag keeps its
    value (a set flag stays set), the disk is as before, and the state
    differs from the drawn one in the status message only. *)
Theorem save_keeps_buffer (h w : Z) (st : EditorState) (d : disk) :
  ∃ st' d', turn h w KSave st d = Continue st' d' ∧
    lines st' = lines st ∧ trailing_nl st' = trailing_nl st ∧
    match write_file d (filename st) (lines st) (trailing_nl st) with
    | Ok dw => modified st' = false ∧ d' = dw ∧ status_msg st' = lit "Saved"
    | Raise e =>
        modified st' = modified st ∧ d' = d ∧
        st' = set_status (draw h w st) (lit "Save error: " ++ e) (lit "err")
    | SysExit => False
    end.
Proof.
  unfold turn.
  pose proof (key_save_spec (draw h w st) d) as Hsave.
  destruct (draw_buffer h w st) as (Hl & Ht & Hm & Hf & _).
  rewrite Hl, Ht, Hf in Hsave.
  destruct (write_file d (filename st) (lines st) (trailing_nl st)) as [dw|e|];
    [| |done]; destruct Hsave as [-> _]; do 2 eexists; (split; [reflexivity|]);
    simpl; by rewrite Hl, Ht, ?Hm.
Qed.

(** A save that fails on a modified buffer. *)
Example save_on_locked_disk :
  turn 24 80 KSave (set_modified (three_lines 0 0 5) true) locked_disk =
    Continue
      (set_status (draw 24 80 (set_modified (three_lines 0 0 5) true))
         (lit "Save error: Permission denied") (lit "err"))
      locked_disk ∧
  modified (draw 24 80 (set_modified (three_lines 0 0 5) true)) = true.
Proof. by vm_compute. Qed.

Lemma turn_lines h w k st d st' d' :
  is_reload k = false → is_edit k = false →
  turn h w k st d = Continue st' d' → lines st' = lines st.
Proof.
  intros Hr He. unfold turn.
  destruct (draw_buffer h w st) as (Hl & _).
  destruct k as [| |ans| | | | |n|new| |term| | |ans| | |];
    try done; simpl; try (intros [= <- <-]; by simpl).
  - repeat case_match; try done. by intros [= <- <-].
  - intros [= <- <-]. unfold key_up. simpl. by repeat case_match.
  - intros [= <- <-]. unfold key_down. simpl. by repeat case_match.
  - destruct (key_goto n (draw h w st)) as [st1|] eqn:Hg; [|done].
    intros [= <- <-]. by rewrite (key_goto_lines _ _ _ Hg).
  - pose proof (key_save_spec (draw h w st) d) as Hsave.
    destruct (write_file _ _ _ _); [| |done]; destruct Hsave as [-> _];
      by intros [= <- <-].
  - intros [= <- <-]. by rewrite key_search_lines.
  - intros [= <- <-]. by rewrite goto_search_match_lines.
  - intros [= <- <-]. by rewrite goto_search_match_lines.
Qed.

Lemma key_edit_length new st : length (lines (key_edit new st)) = length (lines st).
Proof.
  unfold key_edit. repeat (case_match; simpl);
    rewrite ?recompute_search_lines; simpl; by rewrite ?length_insert.
Qed.

Lemma turn_length h w k st d st' d' :
  is_reload k = false →
  turn h w k st d = Continue st' d' → length (lines st') = length (lines st).
Proof.
  intros Hr Hturn. destruct (is_edit k) eqn:He.
  - destruct k; try done. simpl in Hturn. injection Hturn as <- <-.
    by rewrite key_edit_length, (proj1 (draw_buffer h w st)).
  - by rewrite (turn_lines _ _ _ _ _ _ _ Hr He Hturn).
Qed.

Lemma run_length evs : ∀ st d st' d',
  Forall (λ ev : Z * Z * key, is_reload ev.2 = false) evs →
  run evs st d = Continue st' d' → length (lines st') = length (lines st).
Proof.
  induction evs as [|[[h w] k] evs IH]; intros st d st' d' Hall; simpl.
  - by intros [= <- <-].
  - apply Forall_cons in Hall as [Hk Hall]. simpl in Hk.
    destruct (turn h w k st d) as [st1 d1| | |] eqn:Hturn; try done.
    intros Hrun. rewrite (IH _ _ _ _ Hall Hrun).
    by eapply turn_length.
Qed.

Lemma getitem_inside {A} (l : list A) (k : Z) :
  0 ≤ k → getitem l k = l !! Z.to_nat k.
Proof. intros Hk. unfold getitem. by destruct (Z.ltb_spec k 0); [lia|]. Qed.

Lemma key_edit_spec new st :
  0 ≤ selected_index st →
  match new, lines st !! Z.to_nat (selected_index st) with
  | Some txt, Some cur =>
      if bool_decide (txt ≠ cur) then
        let edited :=
          set_status
            (set_modified
               (set_lines st (<[Z.to_nat (selected_index st) := txt]> (lines st))) true)
            (lit "Line updated") (lit "ok") in
        key_edit new st =
          if truthy (search_term st) then recompute_search edited else edited
      else key_edit new st = set_status st (lit "Edit cancelled") (lit "info")
  | None, Some _ => key_edit new st = set_status st (lit "Edit cancelled") (lit "info")
  | _, None => key_edit new st = set_status st (lit "Nothing to edit") (lit "err")
  end.
Proof.
  intros Hidx. unfold key_edit.
  rewrite getitem_inside by done.
  destruct (lines st !! Z.to_nat (selected_index st)) as [cur|] eqn:Hcur.
  - apply lookup_lt_Some in Hcur.
    assert ((0 <=? selected_index st) && (selected_index st <? total st) = true) as ->.
    { apply andb_true_iff. split; [by apply Z.leb_le|].
      apply Z.ltb_lt. unfold total, len. lia. }
    simpl. destruct new as [txt|]; [|done]. by case_bool_decide.
  - apply lookup_ge_None in Hcur.
    assert ((0 <=? selected_index st) && (selected_index st <? total st) = false) as ->.
    { apply andb_false_iff. right. apply Z.ltb_ge. unfold total, len. lia. }
    by destruct new.
Qed.

(** C8. The number of lines of the buffer is the same after any sequence of
    turns without a reload.  A turn that is neither a reload nor an edit
    leaves the buffer as it is.  An edit with a text that differs from the
    selected line puts the text in its place, sets the modified flag and
    recomputes the search when a term is active; any other edit leaves the
    buffer and the modified flag as they are. *)
Theorem edits_keep_line_count :
  (∀ evs st d st' d',
     Forall (λ ev : Z * Z * key, is_reload ev.2 = false) evs →
     run evs st d = Continue st' d' →
     length (lines st') = length (lines st)) ∧
  (∀ h w k st d st' d',
     is_reload k = false → is_edit k = false →
     turn h w k st d = Continue st' d' →
     lines st' = lines st) ∧
  (∀ h w new st d,
     ∃ st', turn h w (KEdit new) st d = Continue st' d ∧
       match new, lines st !! Z.to_nat (selected_index (draw h w st)) with
       | Some txt, Some cur =>
           if bool_decide (txt ≠ cur) then
             lines st' =
               <[Z.to_nat (selected_index (draw h w st)) := txt]> (lines st) ∧
             modified st' = true ∧
             st' =
               (let edited :=
                  set_status
                    (set_modified
                       (set_lines (draw h w st)
                          (<[Z.to_nat (selected_index (draw h w st)) := txt]>
                             (lines st))) true)
                    (lit "Line updated") (lit "ok") in
                if truthy (search_term st) then recompute_search edited else edited)
           else lines st' = lines st ∧ modified st' = modified st
       | _, _ => lines st' = lines st ∧ modified st' = modified st
       end).
Proof.
  split_and!.
  - apply run_length.
  - apply turn_lines.
  - intros h w new st d. eexists. split; [reflexivity|].
    destruct (draw_buffer h w st) as (Hl & _ & Hm & _ & Hterm).
    destruct (draw_viewport_ok h w st) as (Htop & Hsel & _).
    pose proof (key_edit_spec new (draw h w st)) as Hedit.
    rewrite Hl, Hterm in Hedit.
    destruct new as [txt|],
      (lines st !! Z.to_nat (selected_index (draw h w st))) as [cur|];
      try (rewrite Hedit by (unfold selected_index; lia); by simpl).
    case_bool_decide;
      rewrite Hedit by (unfold selected_index; lia); [|by simpl].
    split_and!; [| |done].
    + case_match; [rewrite recompute_search_lines|]; done.
    + case_match; [|done].
      unfold recompute_search. simpl. by repeat case_match.
Qed.

End SessionFacts.

(** * Further properties *)

(** ** Highlight spans *)




(** ** Loader and writer *)

Lemma replace_crlf_id raw : str_in [CR; LF] raw = false → replace_crlf raw = raw.
Proof.
  induction raw as [|c raw IH]; [done|]. simpl str_in.
  intros [Hhead Htail]%orb_false_iff.
  simpl. destruct raw as [|d raw]; [done|].
  destruct (bool_decide (c = CR) && bool_decide (d = LF)) eqn:Hcd.
  - apply andb_true_iff in Hcd as [->%bool_decide_eq_true ->%bool_decide_eq_true].
    done.
  - f_equal. by apply IH.
Qed.

Lemma normalised_replace raw : normalised raw = replace_crlf raw.
Proof.
  unfold normalised. destruct (str_in [CR; LF] raw) eqn:Hin; [done|].
  by rewrite replace_crlf_id.
Qed.

Lemma split_lf_free s : Forall (λ l, LF ∉ l) (split_lf s).
Proof.
  induction s as [|c s IH]; simpl.
  - constructor; [apply not_elem_of_nil|constructor].
  - case_bool_decide as Hc.
    + constructor; [apply not_elem_of_nil|done].
    + destruct (split_lf s) as [|l ls] eqn:Hs; [by apply split_lf_nonempty in Hs|].
      apply Forall_cons in IH as [Hl Hls]. constructor; [|done].
      by intros [<-|?]%elem_of_cons.
Qed.

Lemma read_text_normalised raw :
  read_text raw =
    (if decide (normalised raw = []) then [] else split_lf (normalised raw),
     ends_with_lf (normalised raw)).
Proof.
  unfold read_text. fold (normalised raw).
  generalize (normalised raw). intros text.
  pose proof (split_lf_nonempty text) as Hne.
  pose proof (last_split_lf text) as Hlast.
  rewrite (bool_decide_eq_true_2 _ Hne). simpl.
  unfold ends_with_lf. f_equal.
  destruct (decide (text = [])) as [->|Htext]; [done|].
  case_bool_decide as Hl; [|done]. simpl.
  case_bool_decide as Hend; [done|].
  apply Hlast in Hl as [?|?]; done.
Qed.

(** X3. Loading a file with no CR LF pair and saving what was loaded writes
    the text of the file, followed by one more newline when the text ended
    with a newline. *)
Theorem load_save_rewrites (d : disk) (path raw : str) :
  d !! path = Some (File raw) → str_in [CR; LF] raw = false →
  ∃ ls tr, read_file d path = Ok (ls, tr) ∧
    write_file d path ls tr =
      Ok (<[path := File (if ends_with_lf raw then raw ++ [LF] else raw)]> d).
Proof. apply load_then_save. Qed.

Lemma load_save_rewrites_witness :
  ∃ ls tr, read_file two_files_disk (lit "plain.txt") = Ok (ls, tr) ∧
    write_file two_files_disk (lit "plain.txt") ls tr =
      Ok (<[lit "plain.txt" := File (lit "one" ++ [LF] ++ lit "two")]> two_files_disk).
Proof.
  apply (load_save_rewrites two_files_disk (lit "plain.txt")
           (lit "one" ++ [LF] ++ lit "two")); by vm_compute.
Defined.

(** X4. The lines [read_file] returns hold no newline; joined with newlines
    they give the text of the file with each CR LF pair replaced by LF (the
    test before [replace] changes nothing); the flag tells whether that text
    ends with a newline; and there is no line exactly when it is empty. *)
Theorem read_text_lines (raw : str) :
  Forall (λ l, LF ∉ l) (read_text raw).1 ∧
  join_lf (read_text raw).1 = replace_crlf raw ∧
  (read_text raw).2 = ends_with_lf (replace_crlf raw) ∧
  ((read_text raw).1 = [] ↔ replace_crlf raw = []).
Proof.
  rewrite read_text_normalised, normalised_replace. simpl.
  destruct (decide (replace_crlf raw = [])) as [Hnil|Hne].
  - rewrite Hnil. by split_and!.
  - split_and!; [apply split_lf_free|apply join_split_lf|done|].
    split; [|done]. by intros ?%split_lf_nonempty.
Qed.

Lemma to_crlf_head s : head (to_crlf s) ≠ Some LF.
Proof.
  destruct s as [|c s]; [done|]. unfold to_crlf. simpl.
  case_bool_decide; simpl; [unfold CR, LF; discriminate|congruence].
Qed.

Lemma replace_to_crlf s : replace_crlf (to_crlf s) = s.
Proof.
  induction s as [|c s IH]; [done|].
  change (to_crlf (c :: s))
    with ((if bool_decide (c = LF) then [CR; LF] else [c]) ++ to_crlf s).
  case_bool_decide as Hc.
  - subst c. simpl. by rewrite IH.
  - pose proof (to_crlf_head s) as Hhead.
    simpl. destruct (to_crlf s) as [|e rest] eqn:Hs.
    + destruct s as [|e s]; [done|].
      unfold to_crlf in Hs. simpl in Hs. by case_bool_decide.
    + assert (e ≠ LF) as He by (by intros ->).
      rewrite (bool_decide_eq_false_2 (e = LF)) by done.
      rewrite andb_false_r. by rewrite IH.
Qed.

(** X5. A text without CR LF pair loads as the same lines and the same flag
    when it is stored with Windows line endings (CR LF for each newline). *)
Theorem read_text_crlf (s : str) :
  str_in [CR; LF] s = false → read_text (to_crlf s) = read_text s.
Proof.
  intros Hs. rewrite !read_text_normalised, !normalised_replace.
  by rewrite replace_to_crlf, replace_crlf_id.
Qed.

Lemma read_text_crlf_witness :
  read_text (to_crlf (lit "one" ++ [LF] ++ lit "two" ++ [LF])) =
  read_text (lit "one" ++ [LF] ++ lit "two" ++ [LF]).
Proof. apply read_text_crlf. by vm_compute. Defined.

Lemma split_lf_app_lf l t : LF ∉ l → split_lf (l ++ LF :: t) = l :: split_lf t.
Proof.
  induction l as [|c l IH]; intros Hl; simpl; [done|].
  apply not_elem_of_cons in Hl as [Hc Hl].
  rewrite bool_decide_eq_false_2 by congruence. by rewrite IH.
Qed.

Lemma split_lf_plain l : LF ∉ l → split_lf l = [l].
Proof.
  induction l as [|c l IH]; intros Hl; [done|]. simpl.
  apply not_elem_of_cons in Hl as [Hc Hl].
  rewrite bool_decide_eq_false_2 by congruence. by rewrite IH.
Qed.

Lemma split_join_lf ls :
  ls ≠ [] → Forall (λ l, LF ∉ l) ls → split_lf (join_lf ls) = ls.
Proof.
  induction ls as [|l ls IH]; [done|]. intros _ [Hl Hls]%Forall_cons.
  simpl. destruct ls as [|l' ls]; [by apply split_lf_plain|].
  rewrite split_lf_app_lf by done. f_equal. by apply IH.
Qed.

Lemma join_lf_snoc ls : ls ≠ [] → join_lf (ls ++ [[]]) = join_lf ls ++ [LF].
Proof.
  induction ls as [|l ls IH]; [done|]. intros _.
  destruct ls as [|l' ls]; [done|].
  change (join_lf ((l :: l' :: ls) ++ [[]]))
    with (l ++ LF :: join_lf ((l' :: ls) ++ [[]])).
  rewrite IH by done. simpl. by rewrite <- app_assoc.
Qed.

Lemma join_lf_no_cr ls : Forall (λ l, CR ∉ l) ls → CR ∉ join_lf ls.
Proof.
  induction ls as [|l ls IH]; [intros _; apply not_elem_of_nil|].
  intros [Hl Hls]%Forall_cons. simpl. destruct ls as [|l' ls]; [done|].
  rewrite elem_of_app, elem_of_cons. intros [?|[?|?]]; [done|done|].
  by apply IH.
Qed.

Lemma no_cr_no_crlf s : CR ∉ s → str_in [CR; LF] s = false.
Proof.
  intros Hcr. apply not_true_is_false.
  intros (pre & post & ->)%str_in_spec. apply Hcr.
  rewrite elem_of_app. right. by left.
Qed.

Lemma last_join_lf ls l :
  last ls = Some l → l ≠ [] → last (join_lf ls) = last l ∧ join_lf ls ≠ [].
Proof.
  induction ls as [|l0 ls IH]; [done|]. intros Hlast Hl.
  destruct ls as [|l1 ls].
  - simpl in *. by injection Hlast as ->.
  - rewrite last_cons_cons in Hlast. destruct (IH Hlast Hl) as [IH1 IH2].
    change (join_lf (l0 :: l1 :: ls)) with (l0 ++ LF :: join_lf (l1 :: ls)).
    split; [|by destruct l0].
    rewrite last_app. rewrite last_cons.
    destruct (last (join_lf (l1 :: ls))) as [x|] eqn:Hx.
    + by rewrite <- IH1.
    + by apply last_None in Hx.
Qed.

(** X6. Saving a buffer whose lines hold neither CR nor LF and loading the
    file again: with the trailing-newline flag set, the buffer comes back
    with one more, empty, line at its end (and an empty buffer as two empty
    lines); with the flag clear and a last line that is not empty, or no line
    at all, it comes back as it was. *)
Theorem save_load_lines (ls : list str) :
  Forall (λ l, (LF ∉ l) ∧ (CR ∉ l)) ls →
  read_text (file_text ls true) =
    ((if decide (ls = []) then [[]] else ls) ++ [[]], true) ∧
  ((ls = [] ∨ ∃ l, last ls = Some l ∧ l ≠ []) →
     read_text (file_text ls false) = (ls, false)).
Proof.
  intros Hfree.
  assert (Forall (λ l, LF ∉ l) ls) as Hlf.
  { eapply Forall_impl; [exact Hfree|]. by intros l [? ?]. }
  assert (Forall (λ l, CR ∉ l) ls) as Hcr.
  { eapply Forall_impl; [exact Hfree|]. by intros l [? ?]. }
  pose proof (join_lf_no_cr ls Hcr) as Hjoin.
  split.
  - rewrite read_text_normalised, normalised_replace. unfold file_text.
    rewrite replace_crlf_id.
    2:{ apply no_cr_no_crlf. rewrite elem_of_app, list_elem_of_singleton.
        by intros [?|?]. }
    rewrite decide_False by (by destruct (join_lf ls)).
    f_equal; [|unfold ends_with_lf; by rewrite last_snoc, bool_decide_eq_true_2].
    destruct (decide (ls = [])) as [->|Hne]; [done|].
    rewrite <- join_lf_snoc by done.
    apply split_join_lf; [by destruct ls|].
    apply Forall_app. split; [done|].
    constructor; [apply not_elem_of_nil|constructor].
  - intros Hlast. rewrite read_text_normalised, normalised_replace.
    unfold file_text. rewrite replace_crlf_id by (by apply no_cr_no_crlf).
    destruct Hlast as [->|(l & Hl & Hne)]; [done|].
    destruct (last_join_lf ls l Hl Hne) as [Hlj Hjne].
    rewrite decide_False by done.
    f_equal; [apply split_join_lf; [by destruct ls|done]|].
    unfold ends_with_lf. apply bool_decide_eq_false_2.
    rewrite Hlj. intros Hend. apply last_Some in Hend as [l' ->].
    apply Forall_forall with (x := l' ++ [LF]) in Hlf.
    + apply Hlf. rewrite elem_of_app, list_elem_of_singleton. by right.
    + apply list_elem_of_lookup. apply last_Some in Hl as [ls' ->].
      exists (length ls'). by rewrite list_lookup_middle.
Qed.

Lemma save_load_lines_witness :
  read_text (file_text [lit "one"; lit "two"] true) =
    ([lit "one"; lit "two"; []], true).
Proof.
  apply (save_load_lines [lit "one"; lit "two"]).
  apply (bool_decide_unpack _). by vm_compute.
Defined.

(** ** Search state *)

Lemma clamp_same_search st : same_search st (clamp st).
Proof.
  unfold same_search, clamp, clamp_pin, clamp_fields.
  repeat (case_match; simpl); auto.
Qed.

Lemma draw_same_search h w st : same_search st (draw h w st).
Proof. unfold draw. apply (clamp_same_search (set_window st _ w)). Qed.

Lemma cursor_for_range sel_ix ms :
  (ms = [] → cursor_for sel_ix ms = -1) ∧
  (ms ≠ [] → 0 ≤ cursor_for sel_ix ms < len ms).
Proof.
  split; [by intros ->|]. intros Hne.
  pose proof (first_at_or_after_spec sel_ix ms 0) as Hfirst.
  pose proof (matches_len_pos ms Hne) as Hlen.
  destruct ms as [|m ms]; [done|]. unfold cursor_for.
  destruct (first_at_or_after sel_ix 0 (m :: ms)) as [r|]; simpl; [|lia].
  destruct Hfirst as (k & li & -> & Hk%lookup_lt_Some & _).
  unfold len. simpl in *. lia.
Qed.

Section SearchState.
Context `{PyStr}.

Lemma recompute_search_eq st :
  recompute_search st =
    set_match_index
      (set_search_matches st (matches_of (search_term st) (lines st)))
      (cursor_for (selected_index st) (matches_of (search_term st) (lines st))).
Proof.
  unfold recompute_search, matches_of, cursor_for. simpl.
  destruct (search_term st) as [[|c term]|]; try done. simpl.
  destruct (scan_lines (lower (c :: term)) 0 (lines st) []) as [|m ms]; [done|].
  unfold selected_index. simpl. by case_match.
Qed.

Lemma recompute_search_matches_of st :
  search_matches (recompute_search st) = matches_of (search_term st) (lines st).
Proof. by rewrite recompute_search_eq. Qed.

Lemma recompute_search_cursor_for st :
  match_index (recompute_search st) =
    cursor_for (selected_index st) (matches_of (search_term st) (lines st)).
Proof. by rewrite recompute_search_eq. Qed.

Lemma recompute_search_term st :
  search_term (recompute_search st) = search_term st.
Proof. by rewrite recompute_search_eq. Qed.

Lemma recompute_search_consistent st : search_consistent (recompute_search st).
Proof.
  rewrite recompute_search_eq. unfold search_consistent. simpl.
  split; [done|]. apply cursor_for_range.
Qed.

Lemma same_search_consistent st st' :
  same_search st st' → search_consistent st → search_consistent st'.
Proof.
  intros (Hl & Ht & Hm & Hi) Hc. unfold search_consistent.
  by rewrite Hl, Ht, Hm, Hi.
Qed.

Lemma goto_search_match_term st forward :
  search_term (goto_search_match st forward) = search_term st.
Proof.
  unfold goto_search_match. destruct (search_matches st); simpl; [done|].
  rewrite (proj1 (proj2 (clamp_same_search _))). simpl. by case_match.
Qed.

Lemma goto_search_match_consistent st forward :
  search_consistent st → search_consistent (goto_search_match st forward).
Proof.
  intros (Hm & Hnil & Hin). unfold search_consistent.
  rewrite goto_search_matches, goto_search_match_lines, goto_search_match_term.
  split; [done|].
  destruct (decide (search_matches st = [])) as [Hms|Hms].
  - split; [|done]. intros _. unfold goto_search_match. rewrite Hms. simpl. auto.
  - split; [done|]. intros _. by apply goto_match_index_range.
Qed.

Lemma key_goto_same_search n st st' :
  key_goto n st = Some st' → same_search st st'.
Proof.
  unfold key_goto. destruct n as [s|]; [|by intros [= <-]].
  case_match; [|by intros [= <-]].
  destruct (int_of_str (strip s)) as [v|]; simpl; [|done].
  intros [= <-]. unfold same_search. simpl.
  by destruct (clamp_same_search
    (set_sel (set_top st (0 `max` ((0 `max` ((v - 1) `min` (0 `max` (total st - 1))))
                                   - window_h st `div` 2)))
       ((0 `max` ((v - 1) `min` (0 `max` (total st - 1)))) -
        0 `max` ((0 `max` ((v - 1) `min` (0 `max` (total st - 1))))
                 - window_h st `div` 2)))) as (-> & -> & -> & ->).
Qed.

Lemma stale_free_edit st ls :
  search_consistent st → truthy (search_term st) = false →
  search_consistent (set_lines st ls).
Proof.
  intros (Hm & Hnil & Hin) Hterm. unfold search_consistent. simpl.
  rewrite Hm in *. unfold matches_of in *.
  destruct (search_term st) as [[|c term]|]; try done.
Qed.

Lemma key_edit_consistent new st :
  0 ≤ selected_index st → search_consistent st → search_consistent (key_edit new st).
Proof.
  intros Hidx Hc. pose proof (key_edit_spec new st Hidx) as Hedit.
  destruct new as [txt|], (lines st !! Z.to_nat (selected_index st)) as [cur|];
    try (rewrite Hedit; by eapply same_search_consistent).
  case_bool_decide; cbv zeta in Hedit; rewrite Hedit;
    [|by eapply same_search_consistent].
  destruct (truthy (search_term st)) eqn:Hterm.
  - apply recompute_search_consistent.
  - eapply same_search_consistent;
      [|apply (stale_free_edit st
                 (<[Z.to_nat (selected_index st) := txt]> (lines st)) Hc Hterm)].
    done.
Qed.

Lemma key_search_consistent term st :
  search_consistent st → search_consistent (key_search term st).
Proof.
  intros Hc. unfold key_search. destruct term as [s|].
  - case_bool_decide.
    + eapply same_search_consistent; [|apply recompute_search_consistent]. done.
    + case_match.
      * eapply same_search_consistent; [|apply recompute_search_consistent]. done.
      * apply goto_search_match_consistent, recompute_search_consistent.
  - by eapply same_search_consistent.
Qed.

Lemma key_reload_consistent ans st d st' d' :
  search_consistent st → key_reload ans st d = Continue st' d' →
  search_consistent st'.
Proof.
  intros Hc. unfold key_reload.
  case_match; [intros [= <- <-]; by eapply same_search_consistent|].
  destruct (read_file d (filename st)) as [[ls tr]|e|];
    [|intros [= <- <-]; by eapply same_search_consistent|done].
  simpl. destruct (truthy (search_term st)) eqn:Hterm; intros [= <- <-].
  - apply recompute_search_consistent.
  - eapply same_search_consistent; [|apply (stale_free_edit st ls Hc Hterm)].
    done.
Qed.

Lemma turn_consistent h w k st d st' d' :
  search_consistent st → turn h w k st d = Continue st' d' →
  search_consistent st'.
Proof.
  intros Hc. unfold turn.
  pose proof (same_search_consistent _ _ (draw_same_search h w st) Hc) as Hd.
  destruct k as [| |ans| | | | |n|new| |term| | |ans| | |];
    try done; simpl; try (intros [= <- <-]; by eapply same_search_consistent).
  - repeat case_match; try done. by intros [= <- <-].
  - intros [= <- <-]. eapply same_search_consistent; [|exact Hd].
    unfold key_up, same_search. simpl. by repeat case_match.
  - intros [= <- <-]. eapply same_search_consistent; [|exact Hd].
    unfold key_down, same_search. simpl. by repeat case_match.
  - destruct (key_goto n (draw h w st)) as [st1|] eqn:Hg; [|done].
    intros [= <- <-]. eapply same_search_consistent; [|exact Hd].
    by eapply key_goto_same_search.
  - intros [= <- <-]. apply key_edit_consistent; [|done].
    destruct (draw_viewport_ok h w st) as (? & ? & _).
    unfold selected_index. lia.
  - pose proof (key_save_spec (draw h w st) d) as Hsave.
    destruct (write_file _ _ _ _); [| |done]; destruct Hsave as [-> _];
      intros [= <- <-]; by eapply same_search_consistent.
  - intros [= <- <-]. by apply key_search_consistent.
  - intros [= <- <-]. by apply goto_search_match_consistent.
  - intros [= <- <-]. by apply goto_search_match_consistent.
  - by apply key_reload_consistent.
Qed.

(** X7. [recompute_search] is idempotent: a second call right after the
    first leaves the whole state as it is. *)
Theorem recompute_search_idempotent (st : EditorState) :
  recompute_search (recompute_search st) = recompute_search st.
Proof.
  rewrite (recompute_search_eq (recompute_search st)).
  rewrite (recompute_search_eq st). by destruct st.
Qed.

(** X8. The search state never goes stale.  The state the main loop starts
    with has, and every turn of the loop keeps (edit and reload included), a
    match list that is the one of the current term and buffer and a cursor
    that is [-1] on an empty list and an index into the list otherwise; so
    each match is the index of a line of the buffer. *)
Theorem session_search_consistent :
  (∀ d path st0, start d path = Ok st0 → search_consistent st0) ∧
  (∀ evs st d st' d',
     search_consistent st → run evs st d = Continue st' d' →
     search_consistent st') ∧
  (∀ st, search_consistent st →
     Forall (λ i, 0 ≤ i < total st) (search_matches st)).
Proof.
  split_and!.
  - intros d path st0. unfold start.
    destruct (read_file d path) as [[ls tr]|e|]; try done.
    intros [= <-]. apply recompute_search_consistent.
  - induction evs as [|[[h w] k] evs IH]; intros st d st' d' Hc; simpl.
    + by intros [= <- <-].
    + destruct (turn h w k st d) as [st1 d1| | |] eqn:Hturn; try done.
      apply IH. by eapply turn_consistent.
  - intros st (Hm & _). rewrite Hm. unfold matches_of.
    destruct (search_term st) as [[|c term]|]; try by constructor.
    apply Forall_forall. intros i (k & ln & Hk%lookup_lt_Some & -> & _)%scan_lines_elem.
    unfold total, len. lia.
Qed.

(** X9. [/] with a term that is not blank, when some line matches: the term
    is the stripped input, the match list is the one of that term, and the
    cursor is one step (cyclically) after the first match at or after the
    selected line, which is where [recompute_search] had put it. *)
Theorem key_search_steps_past (st : EditorState) (s : str) :
  strip s ≠ [] →
  matches_of (Some (strip s)) (lines st) ≠ [] →
  search_term (key_search (Some s) st) = Some (strip s) ∧
  search_matches (key_search (Some s) st) = matches_of (Some (strip s)) (lines st) ∧
  match_index (key_search (Some s) st) =
    (cursor_for (selected_index st) (matches_of (Some (strip s)) (lines st)) + 1)
      `mod` len (matches_of (Some (strip s)) (lines st)).
Proof.
  intros Hs Hms. unfold key_search.
  rewrite bool_decide_eq_false_2 by done.
  pose proof (recompute_search_matches_of (set_search_term st (Some (strip s)))) as HM.
  pose proof (recompute_search_cursor_for (set_search_term st (Some (strip s)))) as HI.
  pose proof (recompute_search_term (set_search_term st (Some (strip s)))) as HT.
  change (lines (set_search_term st (Some (strip s)))) with (lines st) in *.
  change (search_term (set_search_term st (Some (strip s))))
    with (Some (strip s)) in *.
  change (selected_index (set_search_term st (Some (strip s))))
    with (selected_index st) in *.
  destruct (cursor_for_range (selected_index st)
              (matches_of (Some (strip s)) (lines st))) as [_ Hr].
  specialize (Hr Hms).
  set (r := recompute_search (set_search_term st (Some (strip s)))) in *.
  clearbody r.
  remember (matches_of (Some (strip s)) (lines st)) as M eqn:HMdef.
  rewrite HM. destruct M as [|m ms]; [done|].
  rewrite goto_search_match_term, goto_search_matches.
  split_and!; [done|done|].
  rewrite goto_match_index by (by rewrite HM). rewrite HM, HI.
  by rewrite (proj2 (Z.eqb_neq _ _)) by lia.
Qed.

End SearchState.

Lemma key_search_steps_past_witness :
  match_index (key_search (Some (lit " foo ")) (three_lines 0 0 5)) = 1.
Proof.
  pose proof (key_search_steps_past (three_lines 0 0 5) (lit " foo "))
    as Hsteps.
  destruct Hsteps as (_ & _ & Hcursor); [by vm_compute|by vm_compute|].
  exact Hcursor.
Defined.

(** ** Viewport across the session *)

Lemma viewport_ok_ext st st' :
  total st' = total st → top st' = top st → sel st' = sel st →
  window_h st' = window_h st → viewport_ok st → viewport_ok st'.
Proof. unfold viewport_ok. by intros -> -> -> ->. Qed.

Lemma half_bounds h : 1 ≤ h → 0 ≤ h `div` 2 ∧ 2 * (h `div` 2) ≤ h ∧ h `div` 2 < h.
Proof.
  intros Hh. pose proof (Z.div_mod h 2) as Hdm.
  pose proof (Z.mod_pos_bound h 2). lia.
Qed.

(** Where the selection is after a viewport is centred on the line [t] and
    clamped. *)
Lemma centred_clamp st t :
  1 ≤ window_h st → 0 ≤ t → t < total st ∨ t = 0 →
  top st = Z.max 0 (t - window_h st `div` 2) → sel st = t - top st →
  selected_index (clamp st) =
    Z.min t (Z.max 0 (total st - window_h st) + window_h st `div` 2).
Proof.
  intros Hh Ht Hin Htop Hsel. pose proof (total_nonneg st) as Hn.
  destruct (half_bounds _ Hh) as (Hh0 & Hh1 & Hh2).
  revert Htop Hh0 Hh1 Hh2. generalize (window_h st `div` 2). intros half.
  intros Htop Hh0 Hh1 Hh2.
  clamp_cases; lia.
Qed.

Lemma clamp_window_h st : window_h (clamp st) = window_h st.
Proof. apply clamp_frame. Qed.

Lemma key_page_ok st :
  viewport_ok st → viewport_ok (key_npage st) ∧ viewport_ok (key_ppage st).
Proof.
  pose proof (total_nonneg st).
  unfold viewport_ok, key_npage, key_ppage, total in *. simpl. lia.
Qed.

Lemma key_arrow_ok st :
  viewport_ok st → viewport_ok (key_down st) ∧ viewport_ok (key_up st).
Proof. intros Hok. split; arrow_cases; lia. Qed.

Section SessionViewport.
Context `{PyStr}.

Lemma recompute_search_view st :
  total (recompute_search st) = total st ∧ top (recompute_search st) = top st ∧
  sel (recompute_search st) = sel st ∧
  window_h (recompute_search st) = window_h st.
Proof. by rewrite recompute_search_eq. Qed.

Lemma recompute_search_ok st : viewport_ok st → viewport_ok (recompute_search st).
Proof.
  destruct (recompute_search_view st) as (? & ? & ? & ?).
  by apply viewport_ok_ext.
Qed.

Lemma set_status_window_h st msg tp : window_h (set_status st msg tp) = window_h st.
Proof. done. Qed.

Lemma goto_search_match_window_h st forward :
  window_h (goto_search_match st forward) = window_h st.
Proof.
  unfold goto_search_match. destruct (search_matches st); [done|].
  rewrite set_status_window_h, clamp_window_h. simpl. by case_match.
Qed.

(** The shape of a jump: the state is centred on the target, clamped, and
    given its status message. *)
Lemma goto_search_match_shape st forward :
  search_matches st ≠ [] →
  ∃ centred msg,
    goto_search_match st forward = set_status (clamp centred) msg (lit "info") ∧
    window_h centred = window_h st ∧ lines centred = lines st ∧
    top centred =
      Z.max 0 (default 0 (getitem (search_matches st)
                            (match_index (goto_search_match st forward)))
               - window_h st `div` 2) ∧
    sel centred =
      default 0 (getitem (search_matches st)
                   (match_index (goto_search_match st forward)))
      - top centred.
Proof.
  intros Hne. rewrite goto_match_index by done.
  unfold goto_search_match.
  destruct (search_matches st) as [|m ms] eqn:Hms; [done|].
  do 2 eexists. split; [reflexivity|].
  simpl. destruct (match_index st =? -1); simpl; by rewrite ?Hms.
Qed.

Lemma goto_search_match_ok st forward :
  1 ≤ window_h st → viewport_ok st → viewport_ok (goto_search_match st forward).
Proof.
  intros Hh Hok. destruct (decide (search_matches st = [])) as [Hms|Hms].
  - unfold goto_search_match. rewrite Hms. by eapply viewport_ok_ext.
  - destruct (goto_search_match_shape st forward Hms)
      as (centred & msg & -> & Hwh & _).
    eapply viewport_ok_ext; [..|apply (clamp_viewport_ok centred)]; try done.
    by rewrite Hwh.
Qed.

Lemma key_goto_ok n st st' :
  1 ≤ window_h st → viewport_ok st → key_goto n st = Some st' → viewport_ok st'.
Proof.
  intros Hh Hok. unfold key_goto. destruct n as [s|]; [|by intros [= <-]].
  case_match; [|intros [= <-]; by eapply viewport_ok_ext].
  destruct (int_of_str (strip s)) as [v|]; [|done]. simpl.
  intros [= <-].
  eapply viewport_ok_ext; [..|apply clamp_viewport_ok]; try done.
Qed.

Lemma key_edit_ok new st : viewport_ok st → viewport_ok (key_edit new st).
Proof.
  intros Hok.
  assert (total (key_edit new st) = total st) as Htotal.
  { unfold total, len. by rewrite key_edit_length. }
  apply (viewport_ok_ext st); [done|..|done];
    unfold key_edit; repeat case_match;
    rewrite ?(proj1 (proj2 (recompute_search_view _))),
      ?(proj1 (proj2 (proj2 (recompute_search_view _)))),
      ?(proj2 (proj2 (proj2 (recompute_search_view _)))); reflexivity.
Qed.

Lemma key_search_ok term st :
  1 ≤ window_h st → viewport_ok st → viewport_ok (key_search term st).
Proof.
  intros Hh Hok. unfold key_search. destruct term as [s|]; [|by eapply viewport_ok_ext].
  case_bool_decide.
  - eapply viewport_ok_ext; [..|apply (recompute_search_ok (set_search_term st None))];
      done.
  - pose proof (recompute_search_ok (set_search_term st (Some (strip s))) Hok) as Hr.
    case_match; [by eapply viewport_ok_ext|].
    apply goto_search_match_ok; [|done].
    by rewrite (proj2 (proj2 (proj2 (recompute_search_view _)))).
Qed.

(** X10. After every turn of the main loop that is not a reload, the state
    satisfies the viewport invariant for the window height of that turn,
    [max(1, h - 2)]: the page keys, the jumps, an edit and a search all keep
    what [draw] has established. *)
Theorem turn_keeps_viewport (h w : Z) (k : key) (st st' : EditorState) (d d' : disk) :
  is_reload k = false →
  turn h w k st d = Continue st' d' →
  viewport_ok st' ∧ window_h st' = Z.max 1 (h - 2).
Proof.
  intros Hr. unfold turn.
  pose proof (draw_viewport_ok h w st) as Hok.
  assert (window_h (draw h w st) = Z.max 1 (h - 2)) as Hwh.
  { unfold draw. by rewrite clamp_window_h. }
  assert (1 ≤ window_h (draw h w st)) as Hh by lia.
  assert (∀ st1, viewport_ok st1 → window_h st1 = window_h (draw h w st) →
            viewport_ok st1 ∧ window_h st1 = Z.max 1 (h - 2)) as Hfin.
  { intros st1 ? ->. by rewrite Hwh. }
  destruct k as [| |ans| | | | |n|new| |term| | |ans| | |];
    try done; simpl; try (intros [= <- <-]; by apply Hfin).
  - repeat case_match; try done. intros [= <- <-]. by apply Hfin.
  - intros [= <- <-]. apply Hfin; [by apply key_arrow_ok|].
    unfold key_up. simpl. by repeat case_match.
  - intros [= <- <-]. apply Hfin; [by apply key_arrow_ok|].
    unfold key_down. simpl. by repeat case_match.
  - intros [= <- <-]. apply Hfin; [by apply key_page_ok|done].
  - intros [= <- <-]. apply Hfin; [by apply key_page_ok|done].
  - destruct (key_goto n (draw h w st)) as [st1|] eqn:Hg; [|done].
    intros [= <- <-]. apply Hfin; [by eapply key_goto_ok|].
    revert Hg. unfold key_goto. destruct n as [s|]; [|by intros [= <-]].
    case_match; [|by intros [= <-]].
    destruct (int_of_str (strip s)); [|done]. simpl. intros [= <-].
    simpl. by rewrite clamp_window_h.
  - intros [= <- <-]. apply Hfin; [by apply key_edit_ok|].
    unfold key_edit. repeat case_match;
      rewrite ?(proj2 (proj2 (proj2 (recompute_search_view _)))); reflexivity.
  - pose proof (key_save_spec (draw h w st) d) as Hsave.
    destruct (write_file _ _ _ _); [| |done]; destruct Hsave as [-> _];
      intros [= <- <-]; by apply Hfin.
  - intros [= <- <-]. apply Hfin; [by apply key_search_ok|].
    unfold key_search. destruct term as [s|]; [|done].
    case_bool_decide.
    + by rewrite set_status_window_h, (proj2 (proj2 (proj2 (recompute_search_view _)))).
    + case_match.
      * by rewrite set_status_window_h,
          (proj2 (proj2 (proj2 (recompute_search_view _)))).
      * rewrite goto_search_match_window_h.
        by rewrite (proj2 (proj2 (proj2 (recompute_search_view _)))).
  - intros [= <- <-]. apply Hfin; [by apply goto_search_match_ok|].
    apply goto_search_match_window_h.
  - intros [= <- <-]. apply Hfin; [by apply goto_search_match_ok|].
    apply goto_search_match_window_h.
Qed.

End SessionViewport.

Lemma turn_keeps_viewport_witness :
  viewport_ok (key_npage (draw 10 80 ten_lines)) ∧
  window_h (key_npage (draw 10 80 ten_lines)) = Z.max 1 (10 - 2).
Proof.
  apply (turn_keeps_viewport 10 80 KPageDown ten_lines _ ∅ ∅); reflexivity.
Defined.

Section Jumps.
Context `{PyStr}.

(** X11. A jump to a search match, in a window of height [h ≥ 1] over [L]
    lines: when the match the cursor moves to is the line [target], the line
    selected afterwards is [min(target, max(0, L - h) + h // 2)].  It is the
    target exactly when [target ≤ max(0, L - h) + h // 2]; nearer to the end
    of the buffer the selection stops short of the match. *)
Theorem goto_search_match_lands (st : EditorState) (forward : bool) (target : Z) :
  1 ≤ window_h st → search_matches st ≠ [] →
  getitem (search_matches st) (match_index (goto_search_match st forward))
    = Some target →
  0 ≤ target < total st →
  selected_index (goto_search_match st forward) =
    Z.min target (Z.max 0 (total st - window_h st) + window_h st `div` 2) ∧
  (selected_index (goto_search_match st forward) = target ↔
     target ≤ Z.max 0 (total st - window_h st) + window_h st `div` 2).
Proof.
  intros Hh Hne Htarget Hin.
  destruct (goto_search_match_shape st forward Hne)
    as (centred & msg & Heq & Hwh & Hl & Htop & Hsel).
  rewrite Htarget in Htop, Hsel. simpl in Htop, Hsel.
  assert (selected_index (goto_search_match st forward) =
            Z.min target (Z.max 0 (total st - window_h st) + window_h st `div` 2))
    as Hlands.
  { rewrite Heq.
    change (selected_index (set_status (clamp centred) msg (lit "info")))
      with (selected_index (clamp centred)).
    rewrite (centred_clamp centred target); unfold total in *;
      rewrite ?Hwh, ?Hl; try done; try lia. }
  split; [done|]. rewrite Hlands. lia.
Qed.

(** X12. [g] with a reply that is a number [v]: the line selected afterwards
    is [min(ln, max(0, L - h) + h // 2)], where [ln] is [v - 1] brought into
    [[0, max(0, L - 1)]]; as for a search jump, a target near the end of the
    buffer is not reached. *)
Theorem key_goto_lands (st : EditorState) (s : str) (v : Z) :
  1 ≤ window_h st → s ≠ [] →
  isdigit (strip s) = true → int_of_str (strip s) = Some v →
  ∃ st', key_goto (Some s) st = Some st' ∧
    selected_index st' =
      Z.min (Z.max 0 (Z.min (v - 1) (Z.max 0 (total st - 1))))
        (Z.max 0 (total st - window_h st) + window_h st `div` 2).
Proof.
  intros Hh Hs Hdigit Hint. unfold key_goto.
  assert (truthy (Some s) = true) as -> by (by destruct s).
  rewrite Hdigit, Hint. simpl. eexists. split; [reflexivity|].
  pose proof (total_nonneg st).
  match goal with |- selected_index (set_status (clamp ?c) _ _) = _ =>
    change (selected_index (clamp c) = Z.min (Z.max 0 (Z.min (v - 1) (Z.max 0 (total st - 1))))
        (Z.max 0 (total st - window_h st) + window_h st `div` 2));
    rewrite (centred_clamp c (Z.max 0 (Z.min (v - 1) (Z.max 0 (total st - 1)))))
  end; try done; unfold total in *; simpl; lia.
Qed.

End Jumps.

Lemma goto_search_match_lands_witness :
  selected_index (goto_search_match ten_lines true) =
    Z.min 9 (Z.max 0 (total ten_lines - window_h ten_lines)
             + window_h ten_lines `div` 2).
Proof.
  apply (goto_search_match_lands ten_lines true 9); by vm_compute.
Defined.

Lemma key_goto_lands_witness :
  ∃ st', key_goto (Some (lit " 10 ")) ten_lines = Some st' ∧
    selected_index st' =
      Z.min (Z.max 0 (Z.min (10 - 1) (Z.max 0 (total ten_lines - 1))))
        (Z.max 0 (total ten_lines - window_h ten_lines)
         + window_h ten_lines `div` 2).
Proof.
  apply (key_goto_lands ten_lines (lit " 10 ") 10); by vm_compute.
Defined.

(** The jump to the last of the ten lines, in a window of height 4, selects
    the line before it. *)
Example jump_to_last_line :
  selected_index (goto_search_match ten_lines true) = 8 ∧
  getitem (search_matches ten_lines)
    (match_index (goto_search_match ten_lines true)) = Some 9.
Proof. by vm_compute. Qed.

(** X13. The page keys, in a state that satisfies the viewport invariant:
    both keep the invariant and leave [sel] alone; page down moves [top]
    forward by at most a page and leaves it where it is exactly at
    [max(0, L - h)]; page up leaves it exactly at [0]; a page down that is not
    cut short is undone by a page up. *)
Theorem page_keys_move_top (st : EditorState) :
  viewport_ok st →
  viewport_ok (key_npage st) ∧ viewport_ok (key_ppage st) ∧
  sel (key_npage st) = sel st ∧ sel (key_ppage st) = sel st ∧
  top st ≤ top (key_npage st) ≤ top st + Z.max 1 (window_h st - 1) ∧
  (top (key_npage st) = top st ↔ top st = Z.max 0 (total st - window_h st)) ∧
  (top (key_ppage st) = top st ↔ top st = 0) ∧
  (top st + Z.max 1 (window_h st - 1) ≤ Z.max 0 (total st - window_h st) →
     top (key_ppage (key_npage st)) = top st).
Proof.
  intros Hok. destruct (key_page_ok st Hok) as [Hn Hp].
  split; [done|]. split; [done|]. clear Hn Hp.
  pose proof (total_nonneg st).
  unfold viewport_ok, key_npage, key_ppage, total in *. simpl. lia.
Qed.

Lemma page_keys_move_top_witness :
  top (key_npage (three_lines 0 0 2)) = 1 ∧
  top (key_ppage (key_npage (three_lines 0 0 2))) = 0.
Proof.
  assert (viewport_ok (three_lines 0 0 2)) as Hok.
  { vm_compute. intuition discriminate. }
  pose proof (page_keys_move_top (three_lines 0 0 2) Hok)
    as (_ & _ & _ & _ & _ & _ & _ & Hback).
  split; [reflexivity|]. apply Hback. vm_compute. discriminate.
Defined.

(** ** Drawing a line *)

Lemma take_take_drop {A} (l : list A) (n m : nat) :
  take n l ++ take m (drop n l) = take (n + m) l.
Proof.
  revert n. induction l as [|a l IH]; intros [|n]; simpl; try done.
  - by rewrite !take_nil.
  - by rewrite IH.
Qed.

Lemma take_chain {A} (l : list A) (cur s k : Z) :
  0 ≤ cur ≤ s → 0 ≤ k →
  take (Z.to_nat (s - cur)) (drop (Z.to_nat cur) l) ++
    take (Z.to_nat k) (drop (Z.to_nat s) l) =
  take (Z.to_nat (s - cur + k)) (drop (Z.to_nat cur) l).
Proof.
  intros Hs Hk.
  replace (Z.to_nat s) with (Z.to_nat cur + Z.to_nat (s - cur))%nat by lia.
  rewrite <- (drop_drop l (Z.to_nat (s - cur)) (Z.to_nat cur)), take_take_drop.
  f_equal. lia.
Qed.

Lemma len_app {A} (l k : list A) : len (l ++ k) = len l + len k.
Proof. unfold len. rewrite length_app. lia. Qed.

Lemma contiguous_app cs : ∀ x0 cs',
  contiguous x0 cs →
  contiguous (x0 + len (concat (written <$> cs))) cs' →
  contiguous x0 (cs ++ cs').
Proof.
  induction cs as [|c cs IH]; intros x0 cs'; simpl.
  - intros _. by rewrite Z.add_0_r.
  - intros [Hx Hc] Hcs'. split; [done|]. apply IH; [done|].
    by rewrite len_app, Z.add_assoc in Hcs'.
Qed.

(** The spans loop, for spans within the line: bounds of each call, layout,
    and the text written, which is the part of [line[cur:]] that fits. *)
Lemma draw_spans_spec (line : str) (w : Z) spans : ∀ x cur calls x' cur',
  0 ≤ cur ≤ len line → well_spaced cur (len line) spans →
  draw_spans line w spans x cur = (calls, x', cur') →
  Forall (λ c, x ≤ call_x c < w ∧ call_n c = w - call_x c) calls ∧
  contiguous x calls ∧
  x' = x + len (concat (written <$> calls)) ∧
  (x < w → x' ≤ w) ∧
  (x' < w → concat (written <$> calls) = slice line cur cur' ∧
            cur ≤ cur' ≤ len line) ∧
  (w ≤ x' → x < w →
     concat (written <$> calls) =
       take (Z.to_nat (w - x)) (drop (Z.to_nat cur) line)) ∧
  (w ≤ x → x' = x ∧ calls = []).
Proof.
  induction spans as [|[s e] spans IH]; intros x cur calls x' cur' Hcur Hws; simpl.
  - intros [= <- <- <-]. simpl. split_and!; try done; try lia.
    + unfold len. simpl. lia.
    + intros _. split; [|lia].
      rewrite slice_inside by lia. by rewrite Z.sub_diag.
  - destruct Hws as (Hs & Hse & He & Hws).
    destruct (Z.geb_spec x w) as [Hxw|Hxw].
    { intros [= <- <- <-]. simpl.
      split_and!; first [done | unfold len; simpl; lia | intros; lia]. }
    assert (slice line cur s = take (Z.to_nat (s - cur)) (drop (Z.to_nat cur) line))
      as Hseg by (apply slice_inside; lia).
    assert (len (slice line cur s) = s - cur) as Hseglen.
    { rewrite Hseg. unfold len in *. rewrite length_take, length_drop. lia. }
    assert (slice line s e = take (Z.to_nat (e - s)) (drop (Z.to_nat s) line))
      as Hmseg by (apply slice_inside; lia).
    assert (len (slice line s e) = e - s) as Hmseglen.
    { rewrite Hmseg. unfold len in *. rewrite length_take, length_drop. lia. }
    set (before := match slice line cur s with
                   | [] => []
                   | _ :: _ => [mkCall x (slice line cur s) (w - x) BaseAttr]
                   end).
    set (x1 := match slice line cur s with
               | [] => x
               | _ :: _ => x + Z.min (len (slice line cur s)) (Z.max 0 (w - x))
               end).
    assert (x1 = x + Z.min (s - cur) (w - x) ∧
            concat (written <$> before) =
              take (Z.to_nat (Z.min (s - cur) (w - x))) (drop (Z.to_nat cur) line) ∧
            Forall (λ c, x ≤ call_x c < w ∧ call_n c = w - call_x c) before ∧
            contiguous x before) as (Hx1 & Hbefore & Hball & Hbcont).
    { subst before x1. destruct (slice line cur s) as [|a seg] eqn:Hslice.
      - assert (s - cur = 0) as Hz by (unfold len in Hseglen; simpl in Hseglen; lia).
        rewrite Hz. rewrite Z.min_l by lia. simpl. split_and!; try done. lia.
      - rewrite Hseglen. split_and!.
        + lia.
        + simpl. rewrite app_nil_r. unfold written. simpl.
          rewrite Hseg, take_take. f_equal. lia.
        + repeat constructor; simpl; lia.
        + simpl. split; [done|]. done. }
    clearbody before x1.
    assert (len (concat (written <$> before)) = Z.min (s - cur) (w - x)) as Hblen.
    { rewrite Hbefore. unfold len in *. rewrite length_take, length_drop. lia. }
    destruct (Z.geb_spec x1 w) as [Hx1w|Hx1w].
    { intros [= <- <- <-]. split_and!; try done; try lia.
      intros _ _. rewrite Hbefore. f_equal. lia. }
    set (hit := mkCall x1 (slice line s e) (w - x1) SearchHighlight).
    destruct (draw_spans line w spans (x1 + Z.min (len (slice line s e))
                                              (Z.max 0 (w - x1))) e)
      as [[rest x2] cur2] eqn:Hrest.
    intros [= <- <- <-].
    assert (0 ≤ e ≤ len line) as He' by lia.
    destruct (IH _ _ _ _ _ He' Hws Hrest)
      as (Hrall & Hrcont & Hx2 & Hle & Hfit & Hcut & Hstop).
    assert (written hit = take (Z.to_nat (Z.min (e - s) (w - x1)))
                            (drop (Z.to_nat s) line)) as Hhit.
    { unfold written, hit. simpl. rewrite Hmseg, take_take. f_equal. lia. }
    assert (len (written hit) = Z.min (e - s) (w - x1)) as Hhitlen.
    { rewrite Hhit. unfold len in *. rewrite length_take, length_drop. lia. }
    rewrite Hmseglen in *.
    assert (s - cur ≤ w - x) as Hfits by lia.
    rewrite Z.min_l in Hx1, Hbefore, Hblen by lia.
    assert (concat (written <$> before ++ hit :: rest) =
            concat (written <$> before) ++ written hit ++ concat (written <$> rest))
      as Hconcat by (by rewrite fmap_app, concat_app).
    split_and!.
    + apply Forall_app. split; [done|]. constructor; [simpl; lia|].
      eapply Forall_impl; [exact Hrall|]. simpl. intros c. lia.
    + apply contiguous_app; [done|]. simpl. split; [lia|].
      by replace (x + len (concat (written <$> before)) + len (written hit))
        with (x1 + Z.min (e - s) (Z.max 0 (w - x1))) by lia.
    + rewrite Hconcat, !len_app. lia.
    + intros _.
      destruct (Z.lt_ge_cases (x1 + Z.min (e - s) (Z.max 0 (w - x1))) w);
        [by apply Hle|]. destruct Hstop as [-> _]; lia.
    + intros Hx2w. destruct (Hfit Hx2w) as [Hrest_text Hcur2].
      split; [|lia]. rewrite Hconcat, Hbefore, Hhit, Hrest_text.
      rewrite Z.min_l by lia.
      rewrite !slice_inside by lia.
      rewrite app_assoc, (take_chain line cur s (e - s)) by lia.
      replace (s - cur + (e - s)) with (e - cur) by lia.
      rewrite (take_chain line cur e (cur2 - e)) by lia.
      f_equal. lia.
    + intros Hx2w _. rewrite Hconcat, Hbefore, Hhit.
      destruct (Z.lt_ge_cases (x1 + Z.min (e - s) (Z.max 0 (w - x1))) w)
        as [Hmore|Hfull].
      * rewrite Hcut by lia. rewrite Z.min_l by lia.
        rewrite app_assoc, (take_chain line cur s (e - s)) by lia.
        replace (s - cur + (e - s)) with (e - cur) by lia.
        rewrite (take_chain line cur e) by lia.
        f_equal. lia.
      * destruct Hstop as [_ ->]; [lia|]. simpl. rewrite app_nil_r.
        rewrite (take_chain line cur s) by lia.
        f_equal. lia.
    + lia.
Qed.

Lemma last_end_bounds hi spans : ∀ cur,
  cur ≤ hi → well_spaced cur hi spans → cur ≤ last_end cur spans ≤ hi.
Proof.
  unfold last_end.
  induction spans as [|[s e] spans IH]; intros cur Hcur; simpl; [lia|].
  intros (Hs & Hse & He & Hws). specialize (IH e He Hws).
  destruct spans as [|sp spans]; simpl in *; [lia|].
  destruct (last (sp :: spans)) as [[s' e']|]; simpl in *; lia.
Qed.

Lemma draw_spans_fit (line : str) (w : Z) spans : ∀ x cur,
  0 ≤ cur ≤ len line → well_spaced cur (len line) spans →
  x + (len line - cur) < w →
  ∃ calls, draw_spans line w spans x cur =
             (calls, x + (last_end cur spans - cur), last_end cur spans).
Proof.
  induction spans as [|[s e] spans IH]; intros x cur Hcur Hws Hfit; simpl.
  - exists []. unfold last_end. simpl. do 2 f_equal. lia.
  - destruct Hws as (Hs & Hse & He & Hws).
    destruct (Z.geb_spec x w) as [?|_]; [lia|].
    assert (len (slice line cur s) = s - cur) as Hseglen.
    { rewrite slice_inside by lia. unfold len in *.
      rewrite length_take, length_drop. lia. }
    assert (len (slice line s e) = e - s) as Hmseglen.
    { rewrite slice_inside by lia. unfold len in *.
      rewrite length_take, length_drop. lia. }
    assert (match slice line cur s with
            | [] => x
            | _ :: _ => x + Z.min (len (slice line cur s)) (Z.max 0 (w - x))
            end = x + (s - cur)) as ->.
    { destruct (slice line cur s) eqn:Hseg; [|lia].
      unfold len in Hseglen. simpl in Hseglen. lia. }
    destruct (Z.geb_spec (x + (s - cur)) w) as [?|_]; [lia|].
    rewrite Hmseglen.
    replace (x + (s - cur) + Z.min (e - s) (Z.max 0 (w - (x + (s - cur)))))
      with (x + (e - cur)) by lia.
    destruct (IH (x + (e - cur)) e) as [rest ->]; [lia|done|lia|].
    eexists. unfold last_end.
    assert (last ((s, e) :: spans) = Some (default (s, e) (last spans))) as ->.
    { destruct spans as [|sp spans]; [done|]. rewrite last_cons_cons.
      by destruct (last (sp :: spans)) eqn:Hl; [|apply last_None in Hl]. }
    simpl. destruct (last spans) as [[s' e']|]; simpl; do 2 f_equal; lia.
Qed.

Section DrawLine.
Context `{PyStr}.

(** X14. The text calls [draw] makes for a line, with the spans of
    [find_positions], from column [x0] in a window of width [w]: each call
    starts at a column in [[x0, w)] and asks for exactly the room left up to
    [w]; the calls follow one another without gap or overlap; and what they
    write, in order, is the first [w - x0] characters of the line. *)
Theorem draw_text_shows_line (line : str) (term : option str) (w x0 : Z) :
  ∃ spans, find_positions line term = Some spans ∧
    Forall (λ c, x0 ≤ call_x c < w ∧ call_n c = w - call_x c)
      (draw_text line w spans x0) ∧
    contiguous x0 (draw_text line w spans x0) ∧
    concat (written <$> draw_text line w spans x0) = take (Z.to_nat (w - x0)) line.
Proof.
  destruct (find_positions_greedy line term) as (spans & Hrun & Hg).
  exists spans. split; [done|].
  assert (well_spaced 0 (len line) spans) as Hws.
  { destruct term as [[|c term]|]; try by subst spans.
    assert (1 ≤ len (lower (c :: term))) as Hlt.
    { destruct (lower (c :: term)) eqn:Hlow; [by apply lower_nil_inv in Hlow|].
      unfold len. simpl. lia. }
    apply (greedy_well_spaced _ _ _ _ Hlt) in Hg.
    by replace (len line - len (lower (c :: term)) + len (lower (c :: term)))
      with (len line) in Hg by lia. }
  clear Hrun Hg. unfold draw_text.
  destruct (draw_spans line w spans x0 0) as [[calls x] cur] eqn:Hspans.
  assert (0 ≤ 0 ≤ len line) as H0 by (unfold len; lia).
  destruct (draw_spans_spec line w spans x0 0 calls x cur H0 Hws Hspans)
    as (Hall & Hcont & Hx & Hle & Hfit & Hcut & Hstop).
  destruct (Z.ltb_spec x w) as [Hxw|Hxw]; simpl.
  - destruct (Hfit Hxw) as [Htext Hcur].
    rewrite slice_inside in Htext by lia.
    rewrite Z.sub_0_r in Htext. change (Z.to_nat 0) with 0%nat in Htext.
    rewrite drop_0 in Htext.
    assert (len (concat (written <$> calls)) = cur) as Hlen.
    { rewrite Htext. unfold len in *. rewrite length_take. lia. }
    destruct (Z.ltb_spec cur (len line)) as [Hmore|Hend].
    + split_and!.
      * apply Forall_app. split; [done|]. repeat constructor; simpl; lia.
      * apply contiguous_app; [done|]. simpl. split; [lia|done].
      * rewrite fmap_app, concat_app, Htext. simpl. rewrite app_nil_r.
        unfold written. simpl. rewrite slice_from_inside by lia.
        pose proof (take_chain line 0 cur (w - x)) as Hchain.
        rewrite Z.sub_0_r in Hchain. change (Z.to_nat 0) with 0%nat in Hchain.
        rewrite !drop_0 in Hchain. rewrite Hchain by lia. f_equal. lia.
    + rewrite app_nil_r. split_and!; [done|done|].
      rewrite Htext. unfold len in *. rewrite !take_ge; [done|lia|lia].
  - rewrite app_nil_r. split_and!; [done|done|].
    destruct (Z.lt_ge_cases x0 w) as [Hx0|Hx0].
    + rewrite Hcut by lia. change (Z.to_nat 0) with 0%nat. by rewrite drop_0.
    + destruct Hstop as [_ ->]; [done|]. simpl.
      replace (Z.to_nat (w - x0)) with 0%nat by lia. done.
Qed.

End DrawLine.

(** X15. On the selected row, when the whole line fits in the window
    ([x0 + len(line) < w]) and the spans lie within the line, [draw] ends
    with a padding call that writes blanks from column [x0 + e] to the window
    width, [e] being the end of the last span ([0] without spans): the
    column is not moved past the text that follows the last span, so that
    text and the padding are written to the same columns. *)
Theorem draw_line_padding (line : str) (w x0 : Z) (spans : list (Z * Z)) :
  well_spaced 0 (len line) spans → x0 + len line < w →
  draw_line line w spans x0 true =
    draw_text line w spans x0 ++
    [mkCall (x0 + last_end 0 spans) (spaces (w - (x0 + last_end 0 spans)))
       (w - (x0 + last_end 0 spans)) BaseAttr] ∧
  (last_end 0 spans < len line →
     last (draw_text line w spans x0) =
       Some (mkCall (x0 + last_end 0 spans) (slice_from line (last_end 0 spans))
               (w - (x0 + last_end 0 spans)) BaseAttr)) ∧
  0 ≤ last_end 0 spans ≤ len line.
Proof.
  intros Hws Hfit.
  assert (0 ≤ 0 ≤ len line) as H0 by (unfold len; lia).
  destruct (draw_spans_fit line w spans x0 0 H0 Hws) as [calls Hspans]; [lia|].
  rewrite Z.sub_0_r in Hspans.
  assert (0 ≤ last_end 0 spans ≤ len line) as Hend.
  { apply last_end_bounds; [unfold len; lia|done]. }
  unfold draw_line, draw_text. rewrite Hspans.
  assert ((x0 + last_end 0 spans <? w) = true) as -> by (apply Z.ltb_lt; lia).
  split; [done|]. split; [|done].
  intros Hmore. apply Z.ltb_lt in Hmore as ->. simpl.
  by rewrite last_snoc.
Qed.

Lemma draw_line_padding_witness :
  draw_line (lit "foo bar") 80 [(0, 3)] 8 true =
    draw_text (lit "foo bar") 80 [(0, 3)] 8 ++
    [mkCall (8 + last_end 0 [(0, 3)]) (spaces (80 - (8 + last_end 0 [(0, 3)])))
       (80 - (8 + last_end 0 [(0, 3)])) BaseAttr].
Proof.
  apply (draw_line_padding (lit "foo bar") 80 8 [(0, 3)]).
  - vm_compute. intuition discriminate.
  - by vm_compute.
Defined.

(** ** Configuration *)

Lemma dict_get_app {V} (kv kv' : list (str * V)) k :
  dict_get (kv ++ kv') k =
    match dict_get kv k with Some v => Some v | None => dict_get kv' k end.
Proof.
  induction kv as [|[k' v'] kv IH]; cbn -[lit]; [done|]. by case_bool_decide.
Qed.

Lemma dict_set_absent {V} (kv : list (str * V)) k v :
  dict_get kv k = None → dict_set kv k v = kv ++ [(k, v)].
Proof.
  induction kv as [|[k' v'] kv IH]; cbn -[lit]; [done|].
  case_bool_decide; [done|]. intros Hk. by rewrite IH.
Qed.

Lemma dict_set_same {V} (kv : list (str * V)) k v :
  dict_get kv k = Some v → dict_set kv k v = kv.
Proof.
  induction kv as [|[k' v'] kv IH]; cbn -[lit]; [done|].
  case_bool_decide; [by intros [= ->]|]. intros Hk. by rewrite IH.
Qed.

Lemma dict_set_set {V} (kv : list (str * V)) k v v' :
  dict_set (dict_set kv k v) k v' = dict_set kv k v'.
Proof.
  induction kv as [|[k' v0] kv IH]; cbn -[lit].
  - by rewrite bool_decide_eq_true_2.
  - case_bool_decide as Hk; cbn -[lit].
    + by rewrite bool_decide_eq_true_2.
    + rewrite bool_decide_eq_false_2 by done. by rewrite IH.
Qed.

Lemma dict_get_set {V} (kv : list (str * V)) k v :
  dict_get (dict_set kv k v) k = Some v.
Proof.
  induction kv as [|[k' v0] kv IH]; cbn -[lit].
  - by rewrite bool_decide_eq_true_2.
  - case_bool_decide as Hk; cbn -[lit].
    + by rewrite bool_decide_eq_true_2.
    + by rewrite bool_decide_eq_false_2.
Qed.

Lemma filter_ext_in {A} (P Q : A → Prop)
    `{!∀ x, Decision (P x)} `{!∀ x, Decision (Q x)} (l : list A) :
  Forall (λ x, P x ↔ Q x) l → filter P l = filter Q l.
Proof.
  induction l as [|x l IH]; [done|]. intros [Hx Hl]%Forall_cons.
  rewrite !filter_cons, (IH Hl).
  destruct (decide (P x)), (decide (Q x)); tauto || done.
Qed.

(** The filling loop over entries with distinct keys, on an object whose
    theme is an object. *)
Lemma fill_keys_object kv entries : ∀ th,
  NoDup entries.*1 →
  dict_get kv (lit "theme") = Some (JDict th) →
  fill_keys (JDict kv) entries =
    Some (JDict (dict_set kv (lit "theme")
                   (JDict (th ++ filter (λ e, dict_get th e.1 = None) entries)))).
Proof.
  revert kv. induction entries as [|[k v] entries IH]; intros kv th Hnd Hth.
  - cbn -[lit]. by rewrite app_nil_r, dict_set_same.
  - apply NoDup_cons in Hnd as [Hk Hnd]. cbn -[lit]. rewrite Hth. cbn -[lit].
    destruct (dict_get th k) as [v0|] eqn:Hget.
    + rewrite bool_decide_eq_true_2 by done. cbn -[lit].
      rewrite (IH kv th Hnd Hth). by rewrite decide_False.
    + rewrite bool_decide_eq_false_2 by (by intros [? ?]). cbn -[lit].
      rewrite (IH _ (dict_set th k v) Hnd (dict_get_set _ _ _)).
      rewrite dict_set_set, decide_True by done.
      rewrite (dict_set_absent th k v Hget), <- app_assoc. cbn -[lit].
      assert (filter (λ e : str * json, dict_get (th ++ [(k, v)]) e.1 = None) entries
              = filter (λ e : str * json, dict_get th e.1 = None) entries) as ->;
        [|done].
      apply filter_ext_in. apply Forall_forall.
      intros [k' v'] Hin. cbn -[lit]. rewrite dict_get_app. cbn -[lit].
      assert (k ≠ k') as Hne.
      { intros <-. apply Hk. apply list_elem_of_fmap. by exists (k, v'). }
      rewrite bool_decide_eq_false_2 by done.
      by destruct (dict_get th k').
Qed.

Lemma default_theme_keys : NoDup default_theme.*1.
Proof. apply (bool_decide_unpack _). by vm_compute. Qed.

Lemma load_config_object kv th :
  dict_get kv (lit "theme") = Some (JDict th) →
  load_config (Config (JDict kv)) =
    JDict (dict_set kv (lit "theme")
             (JDict (th ++ filter (λ e, dict_get th e.1 = None) default_theme))).
Proof.
  intros Hth. unfold load_config, fill_defaults. cbn -[lit fill_keys default_theme].
  rewrite Hth.
  rewrite bool_decide_eq_true_2 by done. cbn -[lit fill_keys default_theme].
  by rewrite (fill_keys_object kv default_theme th default_theme_keys Hth).
Qed.

Lemma load_config_not_object cfg :
  (∀ kv, cfg ≠ JDict kv) → load_config (Config cfg) = default_config.
Proof.
  intros Hcfg. unfold load_config, fill_defaults.
  destruct cfg as [| | | |l|kv]; try done; [| |by destruct (Hcfg kv)].
  - cbn -[lit]. by case_match.
  - cbn -[lit]. by destruct (existsb _ l).
Qed.

Lemma load_config_no_theme kv :
  dict_get kv (lit "theme") = None →
  load_config (Config (JDict kv)) =
    JDict (kv ++ [(lit "theme", JDict default_theme)]).
Proof.
  intros Hkv. unfold load_config, fill_defaults.
  cbn -[lit fill_keys default_theme]. rewrite Hkv.
  rewrite bool_decide_eq_false_2 by (by intros [? ?]).
  cbn -[lit fill_keys default_theme].
  rewrite (fill_keys_object _ default_theme default_theme default_theme_keys)
    by apply dict_get_set.
  cbn -[lit default_theme filter].
  rewrite dict_set_set, (dict_set_absent kv _ _ Hkv).
  assert (filter (λ e : str * json, dict_get default_theme e.1 = None)
            default_theme = []) as -> by (by vm_compute).
  by rewrite app_nil_r.
Qed.

Lemma filled_theme_get (th : list (str * json)) k :
  dict_get (th ++ filter (λ e, dict_get th e.1 = None) default_theme) k =
    match dict_get th k with
    | Some v => Some v
    | None => dict_get default_theme k
    end.
Proof.
  rewrite dict_get_app.
  destruct (dict_get th k) as [v|] eqn:Hget; [done|].
  induction default_theme as [|[k' v'] ds IH]; [done|].
  destruct (decide (dict_get th k' = None)) as [Hk'|Hk'].
  - rewrite filter_cons_True by done. cbn -[lit].
    case_bool_decide; [done|]. apply IH.
  - rewrite filter_cons_False by done. cbn -[lit].
    case_bool_decide as Hk; [|apply IH]. subst k'. done.
Qed.

(** X16. [load_config] on a parsed object whose ["theme"] is an object: the
    result is the same object with, in the theme, the entries it had, in
    their order and with their values, followed by the default entry of each
    key of [DEFAULT_CONFIG["theme"]] it did not have.  So a colour set by the
    user is never replaced, and a key the program does not know is kept. *)
Theorem load_config_fills_theme (kv th : list (str * json)) :
  dict_get kv (lit "theme") = Some (JDict th) →
  load_config (Config (JDict kv)) =
    JDict (dict_set kv (lit "theme")
             (JDict (th ++ filter (λ e, dict_get th e.1 = None) default_theme))) ∧
  (∀ k, dict_get (th ++ filter (λ e, dict_get th e.1 = None) default_theme) k =
        match dict_get th k with
        | Some v => Some v
        | None => dict_get default_theme k
        end).
Proof.
  intros Hth. split; [by apply load_config_object|]. apply filled_theme_get.
Qed.

Lemma load_config_fills_theme_witness :
  load_config (Config (JDict [(lit "theme", JDict user_theme)])) =
    JDict (dict_set [(lit "theme", JDict user_theme)] (lit "theme")
             (JDict (user_theme ++
                     filter (λ e, dict_get user_theme e.1 = None) default_theme))).
Proof.
  apply (load_config_fills_theme [(lit "theme", JDict user_theme)] user_theme).
  reflexivity.
Defined.

(** X17. [load_config] always returns an object with a ["theme"] entry.  It
    is [DEFAULT_CONFIG] when there is no file, when the file cannot be read
    or parsed, and when the parsed value is not an object; an object without
    ["theme"] comes back with the default theme added as its last entry. *)
Theorem load_config_fallbacks :
  (∀ f, ∃ kv, load_config f = JDict kv ∧ is_Some (dict_get kv (lit "theme"))) ∧
  load_config NoConfig = default_config ∧
  load_config BadConfig = default_config ∧
  (∀ cfg, (∀ kv, cfg ≠ JDict kv) → load_config (Config cfg) = default_config) ∧
  (∀ kv, dict_get kv (lit "theme") = None →
     load_config (Config (JDict kv)) =
       JDict (kv ++ [(lit "theme", JDict default_theme)])).
Proof.
  split_and!;
    [|done|done|apply load_config_not_object|apply load_config_no_theme].
  intros [| |cfg]; [by eexists| by eexists|].
  unfold load_config. destruct (fill_defaults cfg) as [r|] eqn:Hfill;
    [|by eexists]. cbn -[lit].
  revert Hfill. unfold fill_defaults.
  destruct cfg as [| | |s|l|kv]; try done.
  - cbn -[lit]. by case_match.
  - cbn -[lit]. by case_match.
  - cbn -[lit fill_keys default_theme].
    assert (∀ entries c r, fill_keys c entries = Some r →
              (∃ kv', c = JDict kv' ∧ is_Some (dict_get kv' (lit "theme"))) →
              ∃ kv', r = JDict kv' ∧ is_Some (dict_get kv' (lit "theme"))) as Hkeep.
    { induction entries as [|e entries IH]; intros c r0; cbn -[lit].
      - intros [= <-]. done.
      - destruct (fill_key c e) as [c'|] eqn:Hkey; cbn -[lit]; [|done].
        intros Hrest (kv' & -> & Hsome). apply (IH _ _ Hrest).
        revert Hkey. unfold fill_key. cbn -[lit].
        destruct (dict_get kv' (lit "theme")) as [th|] eqn:Hth; cbn -[lit]; [|done].
        destruct (py_contains th e.1) as [[|]|]; cbn -[lit]; try done.
        + intros [= <-]. eexists. split; [done|]. by rewrite Hth.
        + destruct (assign th e.1 e.2) as [th'|]; cbn -[lit]; [|done].
          intros [= <-]. eexists. split; [done|]. by rewrite dict_get_set. }
    case_bool_decide as Hhas; cbn -[lit fill_keys default_theme]; intros Hfill.
    + apply (Hkeep _ _ _ Hfill). eauto.
    + apply (Hkeep _ _ _ Hfill). eexists. split; [done|]. by rewrite dict_get_set.
Qed.

Section Colours.
Context `{PyStr}.

(** X18. [color_from_name] returns a colour number between [-1] and [7]; it
    is [-1], the terminal default, for the empty name and for every name
    whose lowercase form is not a key of [COLOR_NAMES]. *)
Theorem color_from_name_range (name : str) :
  -1 ≤ color_from_name name ≤ 7 ∧
  (name = [] ∨ dict_get COLOR_NAMES (lower name) = None →
   color_from_name name = -1).
Proof.
  unfold color_from_name. split.
  - destruct name as [|c name]; [lia|].
    destruct (dict_get COLOR_NAMES (lower (c :: name))) as [v|] eqn:Hget;
      simpl; [|lia].
    assert (Forall (λ e : str * Z, -1 ≤ e.2 ≤ 7) COLOR_NAMES) as Hall.
    { apply (bool_decide_unpack _). by vm_compute. }
    revert Hget Hall. generalize (lower (c :: name)). intros key.
    induction COLOR_NAMES as [|[k' v'] names IH]; simpl; [done|].
    intros Hget [Hv Hall]%Forall_cons. case_bool_decide.
    + by injection Hget as <-.
    + by apply IH.
  - intros [->|Hnone]; [done|]. destruct name; [done|]. by rewrite Hnone.
Qed.

End Colours.

(** ** The main loop *)

Section MainLoop.
Context `{PyStr}.


(** X20. [e] reports that there is nothing to edit exactly when the buffer
    is empty: after [draw] the selected index is a line of the buffer
    whenever there is one. *)
Theorem edit_needs_a_line (h w : Z) (new : option str) (st : EditorState) (d : disk) :
  turn h w (KEdit new) st d =
    Continue (set_status (draw h w st) (lit "Nothing to edit") (lit "err")) d
  ↔ lines st = [].
Proof.
  destruct (draw_buffer h w st) as (Hl & _).
  destruct (draw_viewport_ok h w st) as (Htop & Hsel & Hin & Hz).
  assert (0 ≤ selected_index (draw h w st)) as Hidx by (unfold selected_index; lia).
  pose proof (key_edit_spec new (draw h w st) Hidx) as Hedit.
  unfold turn. rewrite Hl in Hedit. split.
  - intros [= Hstate].
    destruct (lines st !! Z.to_nat (selected_index (draw h w st))) as [cur|] eqn:Hcur.
    + exfalso. assert (status_msg (key_edit new (draw h w st)) = lit "Nothing to edit")
        as Hmsg by (by rewrite Hstate).
      destruct new as [txt|].
      * case_bool_decide; cbv zeta in Hedit; rewrite Hedit in Hmsg; [|done].
        destruct (truthy _); [rewrite recompute_search_eq in Hmsg|]; done.
      * by rewrite Hedit in Hmsg.
    + apply lookup_ge_None in Hcur.
      destruct (lines st) as [|l ls] eqn:Hls; [done|]. exfalso.
      unfold total, len, selected_index in *. rewrite Hl in Hin. simpl in *. lia.
  - intros Hnil. f_equal.
    rewrite Hnil in Hedit. rewrite lookup_nil in Hedit. by destruct new.
Qed.

End MainLoop.

(** The reply [²] to the go-to prompt: [isdigit] accepts it, [int] does
    not. *)
Example goto_superscript_two :
  turn 24 80 (KGoto (Some [178%N])) (three_lines 0 0 5) ∅ = Uncaught.
Proof. by vm_compute. Qed.

(** ** Theme editor *)

Lemma dict_set_keys {V} (kv : list (str * V)) k v :
  k ∈ kv.*1 → (dict_set kv k v).*1 = kv.*1.
Proof.
  induction kv as [|[k' v'] kv IH]; [by intros ?%elem_of_nil|].
  intros Hin. cbn -[lit]. case_bool_decide as Hk; [done|]. cbn -[lit]. f_equal.
  apply IH. apply elem_of_cons in Hin as [Heq|Hin]; [|done].
  by destruct Hk.
Qed.

Section ThemeEditor.
Context `{PyStr}.

(** The loop keeps the keys of its copy of the theme and keeps the selected
    row on one of them. *)
Lemma theme_loop_keys cfg keys evs : ∀ theme idx,
  theme.*1 = keys → 0 ≤ idx < len keys →
  match theme_loop cfg keys theme idx evs with
  | ThemeSaved cfg' =>
      ∃ theme', cfg' = dict_set cfg (lit "theme") (JDict theme') ∧ theme'.*1 = keys
  | ThemeLeft cfg' => cfg' = cfg
  | ThemeRaised => False
  | ThemeOpen theme' idx' => theme'.*1 = keys ∧ 0 ≤ idx' < len keys
  end.
Proof.
  induction evs as [|ev evs IH]; intros theme idx Hkeys Hidx; [done|].
  destruct ev as [| | |reply| | |]; cbn -[lit]; try done.
  - apply IH; [done|lia].
  - apply IH; [done|lia].
  - rewrite getitem_inside by lia.
    destruct (keys !! Z.to_nat idx) as [key|] eqn:Hkey.
    + destruct reply as [newv|]; apply IH; try done.
      rewrite dict_set_keys; [done|]. rewrite Hkeys.
      by eapply list_elem_of_lookup_2.
    + apply lookup_ge_None in Hkey. unfold len in Hidx. lia.
  - by exists theme.
  - by apply IH.
  - by apply IH.
Qed.

(** X21. [theme_editor] on a configuration whose theme is an object with at
    least one entry, the drawing calls taken to succeed: whatever keys are
    pressed, the key handling does not raise; left with [q] it returns with
    the configuration as it was; left with [s] it returns with the theme
    replaced by one that has the same keys in the same order (values are
    edited, entries are never added or removed); and while it is open the
    selected row is one of the entries. *)
Theorem theme_editor_keeps_keys (kv theme : list (str * json)) (evs : list theme_key) :
  dict_get kv (lit "theme") = Some (JDict theme) → theme ≠ [] →
  match theme_editor (JDict kv) evs with
  | ThemeSaved cfg' =>
      ∃ theme', cfg' = dict_set kv (lit "theme") (JDict theme') ∧
                theme'.*1 = theme.*1
  | ThemeLeft cfg' => cfg' = kv
  | ThemeRaised => False
  | ThemeOpen theme' idx => theme'.*1 = theme.*1 ∧ 0 ≤ idx < len theme
  end.
Proof.
  intros Hth Hne. unfold theme_editor. rewrite Hth. cbn -[lit]. rewrite Hth.
  pose proof (theme_loop_keys kv theme.*1 evs theme 0 eq_refl) as Hloop.
  assert (len theme.*1 = len theme) as Hlen.
  { unfold len. by rewrite length_fmap. }
  rewrite Hlen in Hloop. apply Hloop.
  destruct theme; [done|]. unfold len. simpl. lia.
Qed.

End ThemeEditor.

Lemma theme_editor_keeps_keys_witness :
  match theme_editor (JDict [(lit "theme", JDict user_theme)])
          [TDown; TEnter (Some (lit " blue ")); TSave] with
  | ThemeSaved cfg' =>
      ∃ theme', cfg' = dict_set [(lit "theme", JDict user_theme)] (lit "theme")
                         (JDict theme') ∧
                theme'.*1 = user_theme.*1
  | ThemeLeft cfg' => cfg' = [(lit "theme", JDict user_theme)]
  | ThemeRaised => False
  | ThemeOpen theme' idx => theme'.*1 = user_theme.*1 ∧ 0 ≤ idx < len user_theme
  end.
Proof.
  apply (theme_editor_keeps_keys [(lit "theme", JDict user_theme)] user_theme);
    [reflexivity|discriminate].
Defined.

(** With no entry in the theme there is no key to edit: Enter raises. *)
Example theme_editor_empty_theme :
  theme_editor (JDict [(lit "theme", JDict [])]) [TEnter None] = ThemeRaised ∧
  theme_editor (JDict []) [TDown; TEnter None] = ThemeRaised.
Proof. by vm_compute. Qed.

(** An edit in the theme editor: the second row is set to the reply, with the
    blanks around it removed, and the other rows stay. *)
Example theme_editor_edit :
  theme_editor (JDict [(lit "theme", JDict user_theme)])
    [TDown; TEnter (Some (lit " blue ")); TSave] =
  ThemeSaved
    [(lit "theme",
      JDict [ (lit "header_bg", JStr (lit "Magenta")); (lit "accent", JStr (lit "blue"));
              (lit "gutter_fg", JStr (lit "")) ])].
Proof. by vm_compute. Qed.

(** ** Theme editor on the loaded configuration *)

Lemma dict_get_is_Some {V} (kv : list (str * V)) k :
  is_Some (dict_get kv k) ↔ k ∈ kv.*1.
Proof.
  induction kv as [|[k' v] kv IH]; cbn -[lit].
  - split; [by intros [? ?]|by intros ?%elem_of_nil].
  - case_bool_decide as Hk.
    + subst k'. split; [intros _; apply elem_of_cons; by left|done].
    + rewrite IH, elem_of_cons. split; [by right|by intros [->|?]].
Qed.

Lemma has_default_keys_ext (th th' : list (str * json)) :
  th'.*1 = th.*1 → has_default_keys th → has_default_keys th'.
Proof.
  intros Hkeys Hth k Hk. apply dict_get_is_Some. rewrite Hkeys.
  apply dict_get_is_Some. by apply Hth.
Qed.

Lemma has_default_keys_default : has_default_keys default_theme.
Proof. intros k Hk. by apply dict_get_is_Some. Qed.

Lemma has_default_keys_filled th :
  has_default_keys (th ++ filter (λ e, dict_get th e.1 = None) default_theme).
Proof.
  intros k Hk. rewrite filled_theme_get.
  destruct (dict_get th k); [done|]. by apply dict_get_is_Some.
Qed.

Lemma has_default_keys_len th : has_default_keys th → 0 < len th.
Proof.
  intros Hth. destruct th as [|e th]; [|unfold len; simpl; lia].
  destruct (Hth (lit "header_fg")) as [? [=]].
  apply (bool_decide_unpack _). by vm_compute.
Qed.

(** What [load_config] returns when the theme in the file, if there is one,
    is an object. *)
Lemma load_config_theme f :
  (∀ kv v, f = Config (JDict kv) → dict_get kv (lit "theme") = Some v →
           ∃ th, v = JDict th) →
  ∃ kv th, load_config f = JDict kv ∧
           dict_get kv (lit "theme") = Some (JDict th) ∧ has_default_keys th.
Proof.
  intros Hf.
  assert (∃ kv th, default_config = JDict kv ∧
            dict_get kv (lit "theme") = Some (JDict th) ∧ has_default_keys th)
    as Hdefault.
  { eexists _, _. split; [done|]. split; [done|]. apply has_default_keys_default. }
  destruct f as [| |cfg]; [done|done|].
  destruct cfg as [| | | | |kv]; try (by rewrite load_config_not_object).
  destruct (dict_get kv (lit "theme")) as [v|] eqn:Hth.
  - destruct (Hf kv v eq_refl Hth) as [th ->].
    rewrite (load_config_object kv th Hth). eexists _, _.
    split; [done|]. split; [apply dict_get_set|]. apply has_default_keys_filled.
  - rewrite (load_config_no_theme kv Hth). eexists _, _.
    split; [done|]. split; [|apply has_default_keys_default].
    rewrite dict_get_app, Hth. done.
Qed.

Section ThemeAfterLoad.
Context `{PyStr}.

(** X22. [theme_editor] on the configuration that [load_config] returns, for
    a file whose theme, if it has one, is an object (the drawing calls taken
    to succeed).  The key handling does not raise whatever keys are pressed;
    [q] leaves the loaded configuration as it is; and the theme that [s]
    stores, like the one shown while the editor is open, still has an entry
    for every key of [DEFAULT_CONFIG["theme"]]. *)
Theorem theme_editor_after_load (f : config_file) (evs : list theme_key) :
  (∀ kv v, f = Config (JDict kv) → dict_get kv (lit "theme") = Some v →
           ∃ th, v = JDict th) →
  match theme_editor (load_config f) evs with
  | ThemeSaved cfg' =>
      ∃ theme', dict_get cfg' (lit "theme") = Some (JDict theme') ∧
                has_default_keys theme'
  | ThemeLeft cfg' => JDict cfg' = load_config f
  | ThemeRaised => False
  | ThemeOpen theme' idx => has_default_keys theme' ∧ 0 ≤ idx < len theme'
  end.
Proof.
  intros Hf. destruct (load_config_theme f Hf) as (kv & th & -> & Hth & Hkeys).
  unfold theme_editor. rewrite Hth. cbn -[lit]. rewrite Hth.
  pose proof (has_default_keys_len th Hkeys) as Hlen.
  assert (len th.*1 = len th) as Hfst by (unfold len; by rewrite length_fmap).
  pose proof (theme_loop_keys kv th.*1 evs th 0 eq_refl ltac:(lia)) as Hloop.
  destruct (theme_loop kv th.*1 th 0 evs) as [cfg'|cfg'| |theme' idx]; [| |done|].
  - destruct Hloop as (theme' & -> & Hsame). exists theme'.
    split; [apply dict_get_set|]. by eapply has_default_keys_ext.
  - by subst cfg'.
  - destruct Hloop as [Hsame Hidx]. split; [by eapply has_default_keys_ext|].
    assert (len theme' = len theme'.*1) as -> by (unfold len; by rewrite length_fmap).
    by rewrite Hsame.
Qed.

End ThemeAfterLoad.

Lemma theme_editor_after_load_witness :
  match theme_editor (load_config (Config (JDict [(lit "theme", JDict user_theme)])))
          [TDown; TEnter (Some (lit " blue ")); TSave] with
  | ThemeSaved cfg' =>
      ∃ theme', dict_get cfg' (lit "theme") = Some (JDict theme') ∧
                has_default_keys theme'
  | ThemeLeft cfg' =>
      JDict cfg' = load_config (Config (JDict [(lit "theme", JDict user_theme)]))
  | ThemeRaised => False
  | ThemeOpen theme' idx => has_default_keys theme' ∧ 0 ≤ idx < len theme'
  end.
Proof.
  apply (theme_editor_after_load (Config (JDict [(lit "theme", JDict user_theme)]))).
  intros kv v [= <-] [= <-]. by eexists.
Defined.
